(** * Efficient Spectral Hashing: the manifold solvers in exact arithmetic

    A shallow embedding of [ESH_manifold/Efficient_SH_with_manifold_ours.py]
    and the proofs of its specification.

    The program computes with float32 tensors.  Here every number is an
    element of a real closed field [T] (exact arithmetic, with square roots),
    and matrices are MathComp matrices over [T].  The one place where floats
    behave differently in kind, a division by zero giving Inf or NaN instead
    of an error, is modelled explicitly by the type [scalar].

    Three collaborators of the program are not part of it and are taken as
    parameters: [normalize_Z] (imported from the module utilities),
    [eigsh] (scipy) and the gradient the TensorFlow tape returns
    ([tape_gradient]).  The concrete runs at the end of the file instantiate
    [T] with the real numbers of the Standard Library and the tape with the
    closed-form derivative of the cost. *)

From HB Require Import structures.
From Stdlib Require Import Reals Epsilon FunctionalExtensionality Lra.
From mathcomp Require Import boot order algebra.
Set Implicit Arguments.
Unset Strict Implicit.
Unset Printing Implicit Defensive.
Import Order.TTheory GRing.Theory Num.Theory.

Local Open Scope R_scope.

(** ** The real numbers as a real closed field

    The Standard Library's [R] is given the structures of MathComp's
    hierarchy up to [rcfType]; polynomial roots come from the intermediate
    value theorem. *)


Definition eqr (x y : R) : bool := if Req_EM_T x y then true else false.

Lemma eqrP : Equality.axiom eqr.
Proof. by move=> x y; rewrite /eqr; case: Req_EM_T => h; constructor. Qed.

HB.instance Definition _ := hasDecEq.Build R eqrP.

Definition pickr (P : pred R) (_ : nat) : option R :=
  let x := epsilon (inhabits 0) P in if P x then Some x else None.

Lemma pickr_some P n x : pickr P n = Some x -> P x.
Proof. by rewrite /pickr; case: ifP => // Px [<-]. Qed.

Lemma pickr_ex (P : pred R) : (exists x, P x) -> exists n, pickr P n.
Proof.
move=> exP; exists 0%N; rewrite /pickr.
by rewrite (epsilon_spec (inhabits 0) (fun x => is_true (P x)) exP).
Qed.

Lemma pickr_ext (P Q : pred R) : P =1 Q -> pickr P =1 pickr Q.
Proof.
move=> PQ n; rewrite /pickr.
by have -> : P = Q by apply: functional_extensionality.
Qed.

HB.instance Definition _ := hasChoice.Build R pickr_some pickr_ex pickr_ext.

Lemma RplusA : associative Rplus.
Proof. by move=> x y z; rewrite Rplus_assoc. Qed.

HB.instance Definition _ :=
  GRing.isZmodule.Build R RplusA Rplus_comm Rplus_0_l Rplus_opp_l.

Lemma R1_neq0 : R1 != R0.
Proof. by apply/eqP; apply: R1_neq_R0. Qed.

Lemma RmultA : associative Rmult.
Proof. by move=> x y z; rewrite Rmult_assoc. Qed.

HB.instance Definition _ :=
  GRing.Zmodule_isComNzRing.Build R
    RmultA Rmult_comm Rmult_1_l Rmult_plus_distr_r R1_neq0.

Lemma RmulV (x : R) : x != 0 -> Rmult (Rinv x) x = 1.
Proof. by move=> /eqP x0; rewrite Rinv_l. Qed.

HB.instance Definition _ := GRing.ComNzRing_isField.Build R RmulV Rinv_0.


Definition ler (x y : R) : bool := if Rle_dec x y then true else false.
Definition ltr (x y : R) : bool := if Rlt_dec x y then true else false.

Lemma lerP x y : reflect (x <= y) (ler x y).
Proof. by rewrite /ler; case: Rle_dec => h; constructor. Qed.

Lemma ltrP x y : reflect (x < y) (ltr x y).
Proof. by rewrite /ltr; case: Rlt_dec => h; constructor. Qed.

Lemma ler0D x y : ler 0 x -> ler 0 y -> ler 0 (x + y).
Proof. by move=> /lerP hx /lerP hy; apply/lerP; Lra.lra. Qed.

Lemma ler0M x y : ler 0 x -> ler 0 y -> ler 0 (x * y).
Proof. by move=> /lerP hx /lerP hy; apply/lerP; apply: Rmult_le_pos. Qed.

Lemma ler0_anti x : ler 0 x -> ler x 0 -> x = 0.
Proof. by move=> /lerP hx /lerP hy; Lra.lra. Qed.

Lemma subr_ge0 x y : ler 0 (y - x) = ler x y.
Proof. by apply/lerP/lerP; Lra.lra. Qed.

Lemma ler0_total x : ler 0 x || ler x 0.
Proof. by apply/orP; case: (Rle_dec 0 x) => h; [left|right]; apply/lerP; Lra.lra. Qed.

Lemma RabsN x : Rabs (- x) = Rabs x.
Proof. exact: Rabs_Ropp. Qed.

Lemma ger0_Rabs x : ler 0 x -> Rabs x = x.
Proof. by move=> /lerP hx; apply: Rabs_pos_eq. Qed.

Lemma ltr_def x y : ltr x y = (y != x) && ler x y.
Proof.
apply/ltrP/andP => [h|[/eqP h /lerP h']]; last by Lra.lra.
by split; [apply/eqP|apply/lerP]; Lra.lra.
Qed.

HB.instance Definition _ :=
  Num.IntegralDomain_isLeReal.Build R
    ler0D ler0M ler0_anti subr_ge0 ler0_total RabsN ger0_Rabs ltr_def.

Lemma continuity_horner (p : {poly R}) : continuity (fun x => p.[x])%R.
Proof.
elim/poly_ind: p => [|p c IHp].
  have -> : (fun x : R => (0 : {poly R}).[x])%R = fun=> 0.
    by apply: functional_extensionality => x; rewrite horner0.
  exact: continuity_const.
have -> : (fun x : R => (p * 'X + c%:P).[x])%R = (fun x => p.[x]%R * x + c).
  by apply: functional_extensionality => x; rewrite hornerMXaddC.
apply: continuity_plus; last exact: continuity_const.
apply: continuity_mult => //.
exact: derivable_continuous derivable_id.
Qed.

Lemma Rreal_closed_axiom : Num.real_closed_axiom R.
Proof.
move=> p a b /lerP ab /andP[/lerP pa /lerP pb].
have pab : p.[a]%R * p.[b]%R <= 0.
  change (p.[a]%R <= 0) in pa; change (0 <= p.[b]%R) in pb.
  by move: (p.[a])%R (p.[b])%R pa pb => u v hu hv; Lra.nra.
have [z [[az zb] pz]] := @IVT_cor (fun x => p.[x]%R) a b (continuity_horner p) ab pab.
by exists z; [apply/andP; split; apply/lerP | apply/eqP].
Qed.

HB.instance Definition _ := Num.RealField_isClosed.Build R Rreal_closed_axiom.


Local Close Scope R_scope.
Local Open Scope ring_scope.
Bind Scope ring_scope with R.

(** ** The program *)

Section Model.
Variable T : rcfType.

(** A float scalar that may have left the finite numbers: the result of a
    tensor or numpy division, which yields Inf or NaN, and raises nothing,
    when the divisor is zero.  A scalar that is not finite turns every matrix
    it scales into one that holds a NaN (the diagonal of F is zero, and
    Inf * 0 is NaN). *)
Inductive scalar := Finite of T | NotFinite.

(** [x / y] on TensorFlow tensors and on numpy float64 scalars. *)
Definition truediv (x y : T) : scalar :=
  if y == 0 then NotFinite else Finite (x / y).

(** [tf.abs], [np.abs]: the absolute value of Inf or NaN is not finite. *)
Definition scalar_abs (s : scalar) : scalar :=
  if s is Finite x then Finite `|x| else NotFinite.

(** [s < t]: a comparison with NaN is false, and so is [Inf < t]. *)
Definition scalar_lt (s : scalar) (t : T) : bool :=
  if s is Finite x then x < t else false.

(** [tf.norm(B, ord='fro', axis=[0, 1])]: the square root of the sum of the
    squared entries. *)
Definition norm_fro p q (B : 'M[T]_(p, q)) : T :=
  Num.sqrt (\sum_i \sum_j B i j ^+ 2).

(** [tf.linalg.inv] of a matrix of numbers: the inverse, or [None] when the
    kernel raises InvalidArgumentError (Input is not invertible).  The kernel
    raises the same error for a matrix that holds a NaN, whose pivots fail
    its test; the loop bodies below take that path without a call of [inv]. *)
Definition inv p (B : 'M[T]_p) : option 'M[T]_p :=
  if B \in unitmx then Some (invmx B) else None.

(** The literal 0.5. *)
Definition half : T := 2%:R^-1.

Section Functions.
Variables (n d K : nat).

(** [cost_fn], lines 34-41.  [train_features] has [n.+1] rows: at least one
    sample, so that [train_features.shape[0]] is not zero. *)
Definition cost_fn (train_features : 'M[T]_(n.+1, d)) (W : 'M[T]_(d, K))
    (Affinity : 'M[T]_d) (alpha : T) : T :=
  let main_cost := -1 * \tr (W^T *m (Affinity *m W)) in
  let projected_values := train_features *m W in
  let reg := norm_fro (map_mx (fun p => p - 1) (map_mx Num.norm projected_values)) ^+ 2 in
  (main_cost + half * alpha * reg) / n.+1%:R.

(** [grad_J], lines 44-45. *)
Definition grad_J (grad W : 'M[T]_(d, K)) : 'M[T]_(d, K) :=
  grad - W *m grad^T *m W.

(** [generalized_grad_J], lines 48-52. *)
Definition generalized_grad_J (grad W : 'M[T]_(d, K)) (M : 'M[T]_d)
    (K_inv : option 'M[T]_K) : 'M[T]_(d, K) :=
  let WGW := W *m grad^T *m W in
  match K_inv with
  | None => grad - M *m WGW
  | Some Ki => grad - M *m WGW *m Ki
  end.

(** [compute_alpha], lines 55-61. *)
Definition compute_alpha (train_features : 'M[T]_(n.+1, d)) (W : 'M[T]_(d, K))
    (Affinity : 'M[T]_d) : scalar :=
  let main_cost := -1 * \tr (W^T *m (Affinity *m W)) in
  let projected_values := train_features *m W in
  let reg := norm_fro (map_mx (fun p => p - 1) (map_mx Num.norm projected_values)) ^+ 2 in
  scalar_abs (truediv (2%:R * main_cost) reg).

End Functions.

(** The exceptions a solve can raise: the one of [tf.linalg.inv], for a
    matrix that is singular or holds a NaN, and the one of reading the loop
    variable [it] at the [return] after a loop over an empty range. *)
Inductive exception := InvalidArgumentError | UnboundLocalError.

Section Solvers.
Variables (n d m K : nat).
(** [normalize_Z] of the module utilities, [scipy.sparse.linalg.eigsh]
    called with [k=K, which='LA'], and [tape.gradient(cost, W)] for the cost
    [cost_fn(train_features, W, Affinity, alpha)]: [None] stands for a
    gradient with a NaN or Inf entry.  The solvers are called with at least
    one feature and one bit (eigsh needs 0 < K < d), so that the matrices
    have entries. *)
Variable normalize_Z : 'M[T]_(n.+1, m) -> 'M[T]_(n.+1, m).
Variable eigsh : 'M[T]_d -> 'rV[T]_K * 'M[T]_(d, K).
Variable tape_gradient :
  'M[T]_(n.+1, d) -> 'M[T]_(d, K) -> 'M[T]_d -> T -> option 'M[T]_(d, K).

(** [get_feature_affinity], lines 18-22. *)
Definition get_feature_affinity (train_features : 'M[T]_(n.+1, d))
    (Z : 'M[T]_(n.+1, m)) : 'M[T]_d :=
  let Z := normalize_Z Z in
  let L := train_features^T *m Z in
  L *m L^T.

(** [initialize_W], lines 25-31. *)
Definition initialize_W (W : option 'M[T]_(d, K)) (Affinity : 'M[T]_d) :
    'M[T]_(d, K) :=
  match W with
  | None => let: (eig_val, eig_vec) := eigsh Affinity in eig_vec
  | Some W => W
  end.

(** What an iteration reads and writes: the variable [W], the step size
    [lr] and the array [cost_values]. *)
Record state := State {
  W_of : 'M[T]_(d, K);
  lr_of : scalar;
  cost_values_of : seq T
}.

(** The ways one pass through the loop body ends: at its last statement, at
    the [break], or by an exception. *)
Inductive step :=
  | Next of state
  | Break of state
  | Raise of exception.

(** The ways the [for] loop ends; [Exhausted] carries the last value of [it],
    if the range had one. *)
Inductive loop_exit :=
  | Exhausted of option nat & state
  | Converged of nat & state
  | LoopRaised of exception.

(** The result of a solve: the pair [(W.numpy(), cost_values[:it + 1])], or
    an exception. *)
Inductive outcome :=
  | Returned of 'M[T]_(d, K) & seq T
  | Raised of exception.

(** The literal 1e-4. *)
Definition tol : T := (10%:R ^+ 4)^-1.

(** Line 112 (and 178): the relative change over ten iterations. *)
Definition convg_check (cost_values : seq T) (it : nat) : scalar :=
  truediv (nth 0 cost_values it - nth 0 cost_values (it - 10)%N)
          (nth 0 cost_values (it - 10)%N).

(** Lines 111-113 (and 177-179): the condition under which the loop breaks. *)
Definition converged (cost_values : seq T) (it : nat) : bool :=
  [&& (it %% 10 == 0)%N, (0 < it)%N
    & scalar_lt (scalar_abs (convg_check cost_values it)) tol].

(** Line 105 (and 171): [Q = matmul(inv(I + lr*0.5*F), (I - lr*0.5*F))]. *)
Definition cayley (lr : T) (F : 'M[T]_d) : option 'M[T]_d :=
  match inv (1%:M + (lr * half) *: F) with
  | Some V => Some (V *m (1%:M - (lr * half) *: F))
  | None => None
  end.

(** Lines 102-103. *)
Definition compute_F (grad W : 'M[T]_(d, K)) : 'M[T]_d :=
  let F0 := grad *m W^T in
  F0 - F0^T.

(** Lines 167-170. *)
Definition compute_generalized_F (grad W : 'M[T]_(d, K)) (M : 'M[T]_d) :
    'M[T]_d :=
  let F0 := grad *m W^T *m M in
  let F := F0 - F0^T in
  F *m M.

(** Lines 117-119: the one gradient [grad] of the iteration is used in both
    terms of [Y_it]. *)
Definition lr_update (grad W W_old : 'M[T]_(d, K)) : scalar :=
  let M_it := W - W_old in
  let Y_it := grad_J grad W - grad_J grad W_old in
  scalar_abs (truediv (\tr (M_it^T *m Y_it)) (\tr (Y_it^T *m Y_it))).

(** The loop body of [ESH_manifold], lines 93-119 (the progress messages
    apart).  The code tests no value for NaN or Inf: a weight [alpha] that is
    not finite makes the cost and the gradient NaN, and a NaN gradient or a
    step size [lr] that is not finite makes the matrix [I + lr*0.5*F] hold a
    NaN, on which [inv] at line 105 raises InvalidArgumentError. *)
Definition body (train_features : 'M[T]_(n.+1, d)) (Affinity : 'M[T]_d)
    (alpha : scalar) (it : nat) (s : state) : step :=
  let W_old := W_of s in
  match alpha, lr_of s with
  | Finite alpha, Finite lr =>
    let cost := cost_fn train_features W_old Affinity alpha in
    let cost_values := set_nth 0 (cost_values_of s) it cost in
    match tape_gradient train_features W_old Affinity alpha with
    | Some grad =>
      let F := compute_F grad W_old in
      match cayley lr F with
      | Some Q =>
        let W := Q *m W_old in
        if converged cost_values it then Break (State W (Finite lr) cost_values)
        else Next (State W (lr_update grad W W_old) cost_values)
      | None => Raise InvalidArgumentError
      end
    | None => Raise InvalidArgumentError
    end
  | _, _ => Raise InvalidArgumentError
  end.

(** The loop body of [ESH_generalized_manifold], lines 158-185: the update
    of [lr] is commented out there.  Values that are not finite end at the
    [inv] of line 171 as in [body]. *)
Definition generalized_body (train_features : 'M[T]_(n.+1, d))
    (Affinity M : 'M[T]_d) (alpha : scalar) (it : nat) (s : state) : step :=
  let W_old := W_of s in
  match alpha, lr_of s with
  | Finite alpha, Finite lr =>
    let cost := cost_fn train_features W_old Affinity alpha in
    let cost_values := set_nth 0 (cost_values_of s) it cost in
    match tape_gradient train_features W_old Affinity alpha with
    | Some grad =>
      let F := compute_generalized_F grad W_old M in
      match cayley lr F with
      | Some Q =>
        let W := Q *m W_old in
        if converged cost_values it then Break (State W (Finite lr) cost_values)
        else Next (State W (Finite lr) cost_values)
      | None => Raise InvalidArgumentError
      end
    | None => Raise InvalidArgumentError
    end
  | _, _ => Raise InvalidArgumentError
  end.

(** [for it in range(maxiter): ...], with [its] the values left to visit and
    [last] the current value of [it], if it has one yet. *)
Fixpoint for_range (loop_body : nat -> state -> step) (its : seq nat)
    (last : option nat) (s : state) : loop_exit :=
  match its with
  | [::] => Exhausted last s
  | it :: its' =>
    match loop_body it s with
    | Next s' => for_range loop_body its' (Some it) s'
    | Break s' => Converged it s'
    | Raise e => LoopRaised e
    end
  end.

(** [return W.numpy(), cost_values[:it + 1]], lines 121 and 187. *)
Definition return_ (e : loop_exit) : outcome :=
  match e with
  | Exhausted (Some it) s | Converged it s =>
      Returned (W_of s) (take it.+1 (cost_values_of s))
  | Exhausted None _ => Raised UnboundLocalError
  | LoopRaised e => Raised e
  end.

(** [ESH_manifold], lines 64-121.  The shape of [W] fixes [K]. *)
Definition ESH_manifold (train_features : 'M[T]_(n.+1, d))
    (Z : 'M[T]_(n.+1, m)) (alpha : option T) (lr : T) (maxiter : nat)
    (W : option 'M[T]_(d, K)) : outcome :=
  let Affinity := get_feature_affinity train_features Z in
  let W := initialize_W W Affinity in
  let cost_values := nseq maxiter 0 in
  let alpha :=
    match alpha with
    | None => compute_alpha train_features W Affinity
    | Some alpha => Finite alpha
    end in
  return_ (for_range (body train_features Affinity alpha) (iota 0 maxiter)
             None (State W (Finite lr) cost_values)).

(** Lines 140-141. *)
Definition generalized_M (train_features : 'M[T]_(n.+1, d)) : 'M[T]_d :=
  let M := n.+1%:R^-1 *: (train_features^T *m train_features) in
  M + (100%:R^-1) *: 1%:M.

(** Line 144, [W = eig_vec/np.sqrt(eig_val)]: column [j] is divided by
    [sqrt(eig_val[j])]; an eigenvalue that is not positive makes the quotient
    NaN or Inf ([None]), and raises nothing. *)
Definition generalized_W (eig_val : 'rV[T]_K) (eig_vec : 'M[T]_(d, K)) :
    option 'M[T]_(d, K) :=
  if [forall j, 0 < eig_val 0 j]
  then Some (\matrix_(i, j) (eig_vec i j / Num.sqrt (eig_val 0 j)))
  else None.

(** [ESH_generalized_manifold], lines 124-187.  A start [W] with a NaN or
    Inf column makes cost and gradient NaN: the first iteration, if there is
    one, raises at the [inv] of line 171. *)
Definition ESH_generalized_manifold (train_features : 'M[T]_(n.+1, d))
    (Z : 'M[T]_(n.+1, m)) (alpha : option T) (lr : T) (maxiter : nat) :
    outcome :=
  let Affinity := get_feature_affinity train_features Z in
  let M := generalized_M train_features in
  let: (eig_val, eig_vec) := eigsh M in
  match generalized_W eig_val eig_vec with
  | Some W =>
    let cost_values := nseq maxiter 0 in
    let alpha :=
      match alpha with
      | None => compute_alpha train_features W Affinity
      | Some alpha => Finite alpha
      end in
    return_ (for_range (generalized_body train_features Affinity M alpha)
               (iota 0 maxiter) None (State W (Finite lr) cost_values))
  | None =>
    if maxiter is 0 then Raised UnboundLocalError
    else Raised InvalidArgumentError
  end.

(** ** Definitions for the statements

    The state a completed pass leaves, the state a finished loop leaves, and
    the state at the start of iteration [k], when the loop gets there. *)
Definition step_state (st : step) : option state :=
  match st with
  | Next s | Break s => Some s
  | _ => None
  end.

Definition exit_state (e : loop_exit) : option state :=
  match e with
  | Exhausted _ s | Converged _ s => Some s
  | _ => None
  end.

Fixpoint state_at (loop_body : nat -> state -> step) (s0 : state) (k : nat) :
    option state :=
  match k with
  | 0 => Some s0
  | k'.+1 =>
    match state_at loop_body s0 k' with
    | Some s => if loop_body k' s is Next s' then Some s' else None
    | None => None
    end
  end.

(** The Frobenius norm and the cost as the specification writes them. *)
Definition frobenius_norm p q (B : 'M[T]_(p, q)) : T :=
  Num.sqrt (\sum_i \sum_j `|B i j| ^+ 2).

Definition cost_spec (X : 'M[T]_(n.+1, d)) (W : 'M[T]_(d, K)) (A : 'M[T]_d)
    (alpha : T) : T :=
  (- \tr (W^T *m A *m W)
   + 2%:R^-1 * alpha
     * frobenius_norm (map_mx Num.norm (X *m W) - const_mx 1) ^+ 2)
  / n.+1%:R.

(** [|x / y|], not a finite number when [y] is zero. *)
Definition truediv_abs (x y : T) : scalar :=
  if y == 0 then NotFinite else Finite `|x / y|.

(** The step size as the specification writes it: [grad_new] is the gradient
    at the new point [W], [grad_old] the gradient at [W_old]. *)
Definition lr_update_spec (grad_new grad_old W W_old : 'M[T]_(d, K)) : scalar :=
  let M_it := W - W_old in
  let Y_it := grad_J grad_new W - grad_J grad_old W_old in
  truediv_abs (\tr (M_it^T *m Y_it)) (\tr (Y_it^T *m Y_it)).

(** [W^T W = I_K]. *)
Definition orthonormal (W : 'M[T]_(d, K)) : Prop := W^T *m W = 1%:M.

(** Lines 87-88 (and 152-153), and the state the loop starts from. *)
Definition resolve_alpha (X : 'M[T]_(n.+1, d)) (A : 'M[T]_d)
    (alpha : option T) (W : 'M[T]_(d, K)) : scalar :=
  match alpha with
  | None => compute_alpha X W A
  | Some alpha => Finite alpha
  end.

Definition start (W : 'M[T]_(d, K)) (lr : T) (maxiter : nat) : state :=
  State W (Finite lr) (nseq maxiter 0).

(** A trace of a solve capped at [maxiter]: it ends at the first iteration
    where the convergence test holds, and has [maxiter] entries if there is
    none. *)
Definition stops_at_first_convergence (maxiter : nat) (tr : seq T) : Prop :=
  [/\ (0 < size tr <= maxiter)%N,
      forall it, (it.+1 < size tr)%N -> ~~ converged tr it
    & (size tr < maxiter)%N -> converged tr (size tr).-1].

(** ** The Cayley transform of a skew-symmetric matrix *)

Section CayleyFacts.
Implicit Types (F A B : 'M[T]_d) (c : T).

Lemma skew_sub_tr A : (A - A^T)^T = - (A - A^T).
Proof. by rewrite linearB /= trmxK opprB. Qed.

Lemma tr_cayley_factor c F :
  F^T = - F -> (1%:M + c *: F)^T = 1%:M - c *: F.
Proof. by move=> skF; rewrite linearD linearZ /= trmx1 skF scalerN. Qed.

Lemma cayley_factors_commute c F :
  (1%:M + c *: F) *m (1%:M - c *: F) = (1%:M - c *: F) *m (1%:M + c *: F).
Proof.
set X := c *: F.
rewrite mulmxBr mulmx1 mulmxDl mul1mx mulmxDr mulmx1 mulmxBl mul1mx.
by rewrite opprD addrA addrK addrA subrK.
Qed.

Lemma skew_quadratic_form (v : 'rV[T]_d) F : F^T = - F -> v *m F *m v^T = 0.
Proof.
move=> skF; set q := v *m F *m v^T.
have qT : q^T = - q by rewrite /q !trmx_mul trmxK skF mulNmx mulmxN mulmxA.
apply/matrixP => i j; rewrite !ord1 mxE.
have := congr1 (fun M : 'M_1 => M 0 0) qT; rewrite !mxE => /eqP.
by rewrite -addr_eq0 -mulr2n -mulr_natr mulf_eq0 pnatr_eq0 orbF => /eqP.
Qed.

Lemma row_sq_eq0 (v : 'rV[T]_d) : v *m v^T = 0 -> v = 0.
Proof.
move=> /matrixP /(_ 0 0); rewrite !mxE => /eqP.
rewrite psumr_eq0 => [i _|/allP vv]; first by rewrite mxE -expr2 sqr_ge0.
apply/rowP => i; rewrite mxE; apply/eqP.
by have := vv i (mem_index_enum i); rewrite /= mxE mulf_eq0 orbb.
Qed.

Lemma cayley_factor_unit c F : F^T = - F -> 1%:M + c *: F \in unitmx.
Proof.
move=> skF; rewrite -row_free_unit; apply/inj_row_free => v v0.
apply: row_sq_eq0.
have := congr1 (mulmx^~ v^T) v0.
rewrite mul0mx mulmxDr mulmx1 mulmxDl -scalemxAr -scalemxAl.
by rewrite skew_quadratic_form // scaler0 addr0.
Qed.

Lemma cayley_orthogonal c F Q :
  F^T = - F -> cayley c F = Some Q -> Q^T *m Q = 1%:M.
Proof.
move=> skF; rewrite /cayley /inv; case: ifP => // Au [<-].
set A := 1%:M + _ in Au *; set B := 1%:M - _.
have AT : A^T = B by apply: tr_cayley_factor.
have Bu : B \in unitmx by rewrite -AT unitmx_tr.
have comm : A *m B = B *m A by apply: cayley_factors_commute.
have icomm : invmx B *m invmx A = invmx A *m invmx B.
  have: invmx B *m invmx A *m (A *m B) = 1%:M.
    by rewrite mulmxA mulmxKV // mulVmx.
  rewrite comm => /(congr1 (mulmx^~ (invmx A *m invmx B))).
  by rewrite mul1mx -!mulmxA mulKVmx // mulmxV // mulmx1.
rewrite trmx_mul trmx_inv AT -AT trmxK AT.
by rewrite mulmxA -[A *m _ *m _]mulmxA icomm mulmxA mulmxV // mul1mx mulVmx.
Qed.

Lemma cayley_total c F : F^T = - F -> exists Q, cayley c F = Some Q.
Proof.
by move=> skF; rewrite /cayley /inv cayley_factor_unit //; eexists.
Qed.

End CayleyFacts.

(** ** The loop *)

Section LoopFacts.
Variable loop_body : nat -> state -> step.

Lemma for_range_cons it its last s :
  for_range loop_body (it :: its) last s
  = match loop_body it s with
    | Next s' => for_range loop_body its (Some it) s'
    | Break s' => Converged it s'
    | Raise e => LoopRaised e
    end.
Proof. by []. Qed.

Lemma for_range_invariant (P : state -> Prop) its last s s' :
  (forall it s1 s2, P s1 -> step_state (loop_body it s1) = Some s2 -> P s2) ->
  P s -> exit_state (for_range loop_body its last s) = Some s' -> P s'.
Proof.
move=> stepP; elim: its last s => [|it its IH] last s Ps /=.
  by case=> <-.
case E: (loop_body it s) => [s1|s1|x] //=.
- by apply: IH; apply: (stepP it) Ps _; rewrite E.
- by case=> <-; apply: (stepP it) Ps _; rewrite E.
Qed.

Lemma state_at_invariant (P : state -> Prop) s0 k s :
  (forall it s1 s2, P s1 -> step_state (loop_body it s1) = Some s2 -> P s2) ->
  P s0 -> state_at loop_body s0 k = Some s -> P s.
Proof.
move=> stepP P0; elim: k s => [|k IH] s /=; first by case=> <-.
case E: (state_at _ _ k) => [s1|] //; case E1: (loop_body k s1) => [s2||] //.
by case=> <-; apply: (stepP k) (IH _ E) _; rewrite E1.
Qed.

Variant for_range_spec (s0 : state) (k r : nat) (last : option nat) :
    loop_exit -> Prop :=
  | ForExhausted s of state_at loop_body s0 (k + r) = Some s :
      for_range_spec s0 k r last
        (Exhausted (if r is 0 then last else Some (k + r).-1) s)
  | ForConverged it s s' of (k <= it < k + r)%N
      & state_at loop_body s0 it = Some s & loop_body it s = Break s' :
      for_range_spec s0 k r last (Converged it s')
  | ForRaised it s x of (k <= it < k + r)%N
      & state_at loop_body s0 it = Some s & loop_body it s = Raise x :
      for_range_spec s0 k r last (LoopRaised x).

Lemma for_rangeP s0 k r last s :
  state_at loop_body s0 k = Some s ->
  for_range_spec s0 k r last (for_range loop_body (iota k r) last s).
Proof.
elim: r k last s => [|r IH] k last s sk /=.
  by have := @ForExhausted s0 k 0 last s; rewrite addn0; apply.
have kr : (k <= k < k + r.+1)%N by rewrite leqnn -addn1 leq_add2l.
case E: (loop_body k s) => [s1|s1|x].
- have sk1 : state_at loop_body s0 k.+1 = Some s1 by rewrite /= sk E.
  case: (IH k.+1 (Some k) s1 sk1) => [s2|it s2 s3|it s2 x].
  + rewrite addSnnS => s2P.
    have -> : (if r is 0 then Some k else Some (k + r.+1).-1)
               = Some (k + r.+1).-1 by case: (r) => [|r'] //; rewrite addn1.
    exact: (@ForExhausted s0 k r.+1 last).
  + rewrite addSnnS => /andP[/ltnW k_it it_kr] sit bit.
    by apply: ForConverged sit bit; rewrite k_it.
  + rewrite addSnnS => /andP[/ltnW k_it it_kr] sit bit.
    by apply: ForRaised sit bit; rewrite k_it.
- exact: ForConverged kr sk E.
- exact: ForRaised kr sk E.
Qed.

End LoopFacts.

(** ** The cost trace *)

Section TraceFacts.

Lemma converged_ext (cv1 cv2 : seq T) it :
  nth 0 cv1 it = nth 0 cv2 it ->
  nth 0 cv1 (it - 10)%N = nth 0 cv2 (it - 10)%N ->
  converged cv1 it = converged cv2 it.
Proof. by rewrite /converged /convg_check => -> ->. Qed.

Lemma converged_take (cv : seq T) k it :
  (it < k)%N -> converged (take k cv) it = converged cv it.
Proof.
move=> it_k; apply: converged_ext; rewrite nth_take //.
exact: leq_ltn_trans (leq_subr _ _) it_k.
Qed.

Variable loop_body : nat -> state -> step.
Variable cost_at : state -> T.

Definition records_costs : Prop :=
  forall it s s',
    (loop_body it s = Next s' ->
       cost_values_of s' = set_nth 0 (cost_values_of s) it (cost_at s)
       /\ ~~ converged (cost_values_of s') it)
    /\ (loop_body it s = Break s' ->
       cost_values_of s' = set_nth 0 (cost_values_of s) it (cost_at s)
       /\ converged (cost_values_of s') it).

Hypothesis rc : records_costs.

Lemma state_at_costs N s0 k s :
  size (cost_values_of s0) = N -> (k <= N)%N ->
  state_at loop_body s0 k = Some s ->
  size (cost_values_of s) = N
  /\ forall i, (i < k)%N ->
       (exists2 si, state_at loop_body s0 i = Some si
                    & nth 0 (cost_values_of s) i = cost_at si)
       /\ ~~ converged (cost_values_of s) i.
Proof.
move=> sz0; elim: k s => [|k IH] s kN /=; first by case=> <-.
case E: (state_at _ _ k) => [s1|] //.
case E1: (loop_body k s1) => [s2||] // [<-].
have [sz1 pre] := IH s1 (ltnW kN) E.
have [cv2 nconv] := (rc k s1 s2).1 E1; rewrite {}cv2 in nconv *.
split=> [|i]; first by rewrite size_set_nth sz1; apply/maxn_idPr.
rewrite ltnS leq_eqVlt => /orP[/eqP ->|i_k].
  split=> //.
  by exists s1; rewrite // nth_set_nth /= eqxx.
have [[si sit cit] nc] := pre i i_k; split.
  by exists si; rewrite // nth_set_nth /= (ltn_eqF i_k).
rewrite (@converged_ext _ (cost_values_of s1)) // nth_set_nth /= ltn_eqF //.
exact: leq_ltn_trans (leq_subr _ _) i_k.
Qed.

Lemma iteration_costs N s0 it s s' :
  size (cost_values_of s0) = N -> (it < N)%N ->
  state_at loop_body s0 it = Some s ->
  cost_values_of s' = set_nth 0 (cost_values_of s) it (cost_at s) ->
  let tr := take it.+1 (cost_values_of s') in
  [/\ size tr = it.+1,
      forall i, (i <= it)%N ->
        exists2 si, state_at loop_body s0 i = Some si & nth 0 tr i = cost_at si,
      forall i, (i < it)%N -> ~~ converged tr i
    & converged tr it = converged (cost_values_of s') it].
Proof.
move=> sz0 itN sit cv' tr.
have [sz pre] := state_at_costs sz0 (ltnW itN) sit.
have sz' : size (cost_values_of s') = N.
  by rewrite cv' size_set_nth sz; apply/maxn_idPr.
split; first by rewrite size_takel // sz'.
- move=> i i_it; rewrite /tr nth_take // cv' nth_set_nth /=.
  move: i_it; rewrite leq_eqVlt; case: eqP => [-> _|_ /= i_it]; first by exists s.
  by have [[si ? ?] _] := pre i i_it; exists si.
- move=> i i_it; rewrite /tr converged_take; first exact: leqW i_it.
  have [_ nc] := pre i i_it.
  rewrite (@converged_ext _ (cost_values_of s)) // cv' nth_set_nth /= ltn_eqF //.
  exact: leq_ltn_trans (leq_subr _ _) i_it.
- by rewrite /tr converged_take.
Qed.

Lemma loop_returnsP N s0 W tr :
  size (cost_values_of s0) = N ->
  return_ (for_range loop_body (iota 0 N) None s0) = Returned W tr ->
  exists it s s',
    [/\ (it < N)%N, state_at loop_body s0 it = Some s,
        W = W_of s', tr = take it.+1 (cost_values_of s')
      & (loop_body it s = Break s' /\ converged tr it)
        \/ [/\ loop_body it s = Next s', ~~ converged tr it & it.+1 = N]]
    /\ [/\ size tr = it.+1,
           forall i, (i <= it)%N ->
             exists2 si, state_at loop_body s0 i = Some si
                         & nth 0 tr i = cost_at si
         & forall i, (i < it)%N -> ~~ converged tr i].
Proof.
move=> sz0; case: (@for_rangeP loop_body s0 0 N None s0 (erefl _)).
- case: N sz0 => [//|N] sz0 s'; rewrite add0n /=.
  case E: (state_at _ _ N) => [s|] //; case E1: (loop_body N s) => [s1||] //.
  case=> <- [<- <-]; exists N, s, s1.
  have [cv' nc] := (rc N s s1).1 E1.
  have [sz ci nci ctr] := iteration_costs sz0 (ltnSn N) E cv'.
  by split; split=> //; right; split=> //; rewrite ctr.
- move=> it s s' /andP[_ itN] sit E1 /= [<- <-]; exists it, s, s'.
  have [cv' nc] := (rc it s s').2 E1.
  have [sz ci nci ctr] := iteration_costs sz0 itN sit cv'.
  by split; split=> //; left; split=> //; rewrite ctr.
- by [].
Qed.

End TraceFacts.
(** ** One iteration *)

Section BodyFacts.
Variables (X : 'M[T]_(n.+1, d)) (A : 'M[T]_d).

Lemma compute_F_skew (G W : 'M[T]_(d, K)) :
  (compute_F G W)^T = - compute_F G W.
Proof. exact: skew_sub_tr. Qed.

Variant body_spec (alpha : scalar) (it : nat) (s : state) : step -> Prop :=
  | BodyNext a lr G Q of alpha = Finite a & lr_of s = Finite lr
      & tape_gradient X (W_of s) A a = Some G
      & cayley lr (compute_F G (W_of s)) = Some Q
      & ~~ converged
             (set_nth 0 (cost_values_of s) it (cost_fn X (W_of s) A a)) it :
      body_spec alpha it s
        (Next (State (Q *m W_of s) (lr_update G (Q *m W_of s) (W_of s))
                 (set_nth 0 (cost_values_of s) it (cost_fn X (W_of s) A a))))
  | BodyBreak a lr G Q of alpha = Finite a & lr_of s = Finite lr
      & tape_gradient X (W_of s) A a = Some G
      & cayley lr (compute_F G (W_of s)) = Some Q
      & converged
          (set_nth 0 (cost_values_of s) it (cost_fn X (W_of s) A a)) it :
      body_spec alpha it s
        (Break (State (Q *m W_of s) (Finite lr)
                  (set_nth 0 (cost_values_of s) it (cost_fn X (W_of s) A a))))
  | BodyRaise of
      [\/ alpha = NotFinite, lr_of s = NotFinite
        | exists2 a, alpha = Finite a & tape_gradient X (W_of s) A a = None] :
      body_spec alpha it s (Raise InvalidArgumentError).

Lemma bodyP alpha it s : body_spec alpha it s (body X A alpha it s).
Proof.
rewrite /body; case: alpha => [a|]; last by constructor; constructor 1.
case E: (lr_of s) => [lr|]; last by constructor; constructor 2.
case G: (tape_gradient _ _ _ _) => [grad|]; last first.
  by constructor; constructor 3; exists a.
have [Q cQ] := cayley_total lr (compute_F_skew grad (W_of s)).
rewrite cQ; case: ifP => cv.
  exact: BodyBreak E G cQ cv.
exact: BodyNext E G cQ (negbT cv).
Qed.

Lemma bodyE a lr G Q it s :
  lr_of s = Finite lr -> tape_gradient X (W_of s) A a = Some G ->
  cayley lr (compute_F G (W_of s)) = Some Q ->
  body X A (Finite a) it s
  = if converged (set_nth 0 (cost_values_of s) it (cost_fn X (W_of s) A a)) it
    then Break (State (Q *m W_of s) (Finite lr)
                  (set_nth 0 (cost_values_of s) it (cost_fn X (W_of s) A a)))
    else Next (State (Q *m W_of s) (lr_update G (Q *m W_of s) (W_of s))
                 (set_nth 0 (cost_values_of s) it (cost_fn X (W_of s) A a))).
Proof. by move=> lrs tg cQ; rewrite /body lrs tg cQ. Qed.

Lemma body_raises alpha it s x :
  body X A alpha it s = Raise x ->
  x = InvalidArgumentError
  /\ [\/ alpha = NotFinite, lr_of s = NotFinite
        | exists2 a, alpha = Finite a & tape_gradient X (W_of s) A a = None].
Proof. by case: bodyP => // nf [<-]. Qed.

Variable M : 'M[T]_d.

Variant generalized_body_spec (alpha : scalar) (it : nat) (s : state) :
    step -> Prop :=
  | GenNext a lr G Q of alpha = Finite a & lr_of s = Finite lr
      & tape_gradient X (W_of s) A a = Some G
      & cayley lr (compute_generalized_F G (W_of s) M) = Some Q
      & ~~ converged
             (set_nth 0 (cost_values_of s) it (cost_fn X (W_of s) A a)) it :
      generalized_body_spec alpha it s
        (Next (State (Q *m W_of s) (Finite lr)
                 (set_nth 0 (cost_values_of s) it (cost_fn X (W_of s) A a))))
  | GenBreak a lr G Q of alpha = Finite a & lr_of s = Finite lr
      & tape_gradient X (W_of s) A a = Some G
      & cayley lr (compute_generalized_F G (W_of s) M) = Some Q
      & converged
          (set_nth 0 (cost_values_of s) it (cost_fn X (W_of s) A a)) it :
      generalized_body_spec alpha it s
        (Break (State (Q *m W_of s) (Finite lr)
                  (set_nth 0 (cost_values_of s) it (cost_fn X (W_of s) A a))))
  | GenRaise a lr G of alpha = Finite a & lr_of s = Finite lr
      & tape_gradient X (W_of s) A a = Some G
      & cayley lr (compute_generalized_F G (W_of s) M) = None :
      generalized_body_spec alpha it s (Raise InvalidArgumentError)
  | GenRaiseNaN of
      [\/ alpha = NotFinite, lr_of s = NotFinite
        | exists2 a, alpha = Finite a & tape_gradient X (W_of s) A a = None] :
      generalized_body_spec alpha it s (Raise InvalidArgumentError).

Lemma generalized_bodyP alpha it s :
  generalized_body_spec alpha it s (generalized_body X A M alpha it s).
Proof.
rewrite /generalized_body; case: alpha => [a|]; last by constructor; constructor 1.
case E: (lr_of s) => [lr|]; last by constructor; constructor 2.
case G: (tape_gradient _ _ _ _) => [grad|]; last first.
  by constructor; constructor 3; exists a.
case cQ: (cayley _ _) => [Q|]; last exact: GenRaise E G cQ.
case: ifP => cv; first exact: GenBreak E G cQ cv.
exact: GenNext E G cQ (negbT cv).
Qed.

Lemma body_records alpha :
  records_costs (body X A alpha)
    (fun s => if alpha is Finite a then cost_fn X (W_of s) A a else 0).
Proof.
move=> it s s'; case: bodyP => [a lr G Q -> _ _ _ nc|a lr G Q -> _ _ _ c|_];
  by split=> // -[<-].
Qed.

Lemma generalized_body_records alpha :
  records_costs (generalized_body X A M alpha)
    (fun s => if alpha is Finite a then cost_fn X (W_of s) A a else 0).
Proof.
move=> it s s'.
case: generalized_bodyP => [a lr G Q -> _ _ _ nc|a lr G Q -> _ _ _ c|a lr G _ _ _ _|_];
  by split=> // -[<-].
Qed.

End BodyFacts.
(** ** Orthonormality *)

Section Claims.
Variables (X : 'M[T]_(n.+1, d)) (A : 'M[T]_d).

Lemma cayley_update_orthonormal lr (G W : 'M[T]_(d, K)) Q :
  orthonormal W -> cayley lr (compute_F G W) = Some Q ->
  orthonormal (Q *m W).
Proof.
move=> oW cQ; rewrite /orthonormal trmx_mul -mulmxA [Q^T *m _]mulmxA.
by rewrite (cayley_orthogonal (compute_F_skew G W) cQ) mul1mx.
Qed.

Lemma body_orthonormal alpha it s s' :
  orthonormal (W_of s) -> step_state (body X A alpha it s) = Some s' ->
  orthonormal (W_of s').
Proof.
move=> oW; case: bodyP => [a lr G Q _ _ _ cQ _|a lr G Q _ _ _ cQ _|_] //= [<-];
  exact: cayley_update_orthonormal cQ.
Qed.

(** C1: in every iteration of the plain solver that starts from a W with
    W^T W = I, the matrix F = G W^T - (G W^T)^T built from the gradient G is
    skew-symmetric, the new point is exactly Q W for the Cayley factor
    Q = (I + (lr/2) F)^-1 (I - (lr/2) F) (whenever the inversion succeeds)
    and it satisfies (Q W)^T (Q W) = I again; hence every state the loop
    leaves, by exhaustion or by convergence, holds an orthonormal W, and no
    other operation ever touches W. *)
Theorem ESH_manifold_orthonormal_invariant alpha (s : state) :
  orthonormal (W_of s) ->
  (forall it s', step_state (body X A alpha it s) = Some s' ->
     exists lr G Q,
       [/\ lr_of s = Finite lr
           /\ (exists2 a, alpha = Finite a
                          & tape_gradient X (W_of s) A a = Some G),
           (compute_F G (W_of s))^T = - compute_F G (W_of s),
           cayley lr (compute_F G (W_of s)) = Some Q,
           W_of s' = Q *m W_of s
         & orthonormal (Q *m W_of s)])
  /\ (forall its last s',
        exit_state (for_range (body X A alpha) its last s) = Some s' ->
        orthonormal (W_of s')).
Proof.
move=> oW; split=> [it s'|its last s']; last first.
  move=> ex.
  apply: (for_range_invariant (P := fun s1 => orthonormal (W_of s1)) _ oW ex).
  by move=> it s1 s2; apply: body_orthonormal.
case: bodyP => [a lr G Q al lrs tg cQ _|a lr G Q al lrs tg cQ _|_] //= [<-];
  exists lr, G, Q; split=> //=; try exact: compute_F_skew;
  try exact: cayley_update_orthonormal cQ; by split=> //; exists a.
Qed.

End Claims.
(** ** The cost *)

Section CostFacts.
Variables (X : 'M[T]_(n.+1, d)) (A : 'M[T]_d).

Lemma sum_sq_ge0 p q (B : 'M[T]_(p, q)) : 0 <= \sum_i \sum_j B i j ^+ 2.
Proof. by apply: sumr_ge0 => i _; apply: sumr_ge0 => j _; apply: sqr_ge0. Qed.

Lemma norm_fro_sq p q (B : 'M[T]_(p, q)) :
  norm_fro B ^+ 2 = \sum_i \sum_j B i j ^+ 2.
Proof. by rewrite /norm_fro sqr_sqrtr // sum_sq_ge0. Qed.

Lemma norm_fro_frobenius p q (B : 'M[T]_(p, q)) :
  norm_fro B = frobenius_norm B.
Proof.
rewrite /norm_fro /frobenius_norm; congr Num.sqrt.
by apply: eq_bigr => i _; apply: eq_bigr => j _; rewrite real_normK ?num_real.
Qed.

Lemma abs_minus_one (P : 'M[T]_(n.+1, K)) :
  map_mx (fun p => p - 1) (map_mx Num.norm P) = map_mx Num.norm P - const_mx 1.
Proof. by apply/matrixP => i j; rewrite !mxE. Qed.

Lemma cost_fnE (W : 'M[T]_(d, K)) (alpha : T) :
  cost_fn X W A alpha = cost_spec X W A alpha.
Proof.
by rewrite /cost_fn /cost_spec /half mulN1r mulmxA abs_minus_one
           norm_fro_frobenius.
Qed.

(** C5: the cost evaluator returns
    [ -trace(W^T A W) + 0.5 alpha || |X W| - 1 ||_F^2 ] / n, with n the number
    of rows of X, |X W| the element-wise absolute value and ||.||_F the
    Frobenius norm; written out, the penalty is the sum over all entries of
    (|sum_k X_ik W_kj| - 1)^2. *)
Theorem cost_fn_formula (W : 'M[T]_(d, K)) (alpha : T) :
  cost_fn X W A alpha = cost_spec X W A alpha
  /\ cost_spec X W A alpha =
       (- \tr (W^T *m A *m W)
        + 2%:R^-1 * alpha
          * \sum_i \sum_j (`|\sum_k X i k * W k j| - 1) ^+ 2) / n.+1%:R.
Proof.
split; first exact: cost_fnE.
rewrite /cost_spec -norm_fro_frobenius norm_fro_sq; congr (_ / _).
congr (_ + _ * _); apply: eq_bigr => i _; apply: eq_bigr => j _.
by rewrite !mxE.
Qed.

End CostFacts.
(** ** Whole solves *)

Section ExhaustionFacts.
Variable loop_body : nat -> state -> step.

Lemma state_at_prefix s0 N sN it :
  state_at loop_body s0 N = Some sN -> (it < N)%N ->
  exists s1 s2, state_at loop_body s0 it = Some s1 /\ loop_body it s1 = Next s2.
Proof.
elim: N sN => [//|N IH] sN /=.
case E: (state_at _ _ N) => [s1|] //; case E1: (loop_body N s1) => [s2||] // _.
rewrite ltnS leq_eqVlt => /orP[/eqP ->|]; first by exists s1, s2.
exact: IH E.
Qed.

Lemma for_range_exhausts s0 N sN :
  state_at loop_body s0 N = Some sN ->
  for_range loop_body (iota 0 N) None s0
  = Exhausted (if N is 0 then None else Some N.-1) sN.
Proof.
move=> sN_at.
case: (@for_rangeP loop_body s0 0 N None s0 (erefl _)).
- by move=> s; rewrite add0n sN_at => -[->].
- move=> it s s' /andP[_ itN] sit bit.
  by have [s1 [s2 []]] := state_at_prefix sN_at itN; rewrite sit => -[<-]; rewrite bit.
- move=> it s x /andP[_ itN] sit bit.
  by have [s1 [s2 []]] := state_at_prefix sN_at itN; rewrite sit => -[<-]; rewrite bit.
Qed.

End ExhaustionFacts.

Section SolveFacts.
Variables (X : 'M[T]_(n.+1, d)) (Z : 'M[T]_(n.+1, m)).
Let A := get_feature_affinity X Z.
Let M := generalized_M X.

Lemma ESH_manifoldE alpha lr maxiter W :
  let W0 := initialize_W W A in
  ESH_manifold X Z alpha lr maxiter W
  = return_ (for_range (body X A (resolve_alpha X A alpha W0))
               (iota 0 maxiter) None (start W0 lr maxiter)).
Proof. by []. Qed.

Lemma ESH_generalized_manifoldE alpha lr maxiter W0 :
  generalized_W (eigsh M).1 (eigsh M).2 = Some W0 ->
  ESH_generalized_manifold X Z alpha lr maxiter
  = return_ (for_range (generalized_body X A M (resolve_alpha X A alpha W0))
               (iota 0 maxiter) None (start W0 lr maxiter)).
Proof.
by rewrite /ESH_generalized_manifold -/M; case: (eigsh M) => ev eV /= ->.
Qed.

Lemma ESH_generalized_manifold_start alpha lr maxiter W tr :
  ESH_generalized_manifold X Z alpha lr maxiter = Returned W tr ->
  exists W0, generalized_W (eigsh M).1 (eigsh M).2 = Some W0.
Proof.
rewrite /ESH_generalized_manifold -/M; case: (eigsh M) => ev eV /=.
by case: (generalized_W ev eV) => [W0 _|]; [exists W0 | case: maxiter].
Qed.

End SolveFacts.
Section RunFacts.
Variables (X : 'M[T]_(n.+1, d)) (Z : 'M[T]_(n.+1, m)).
Let A := get_feature_affinity X Z.
Let M := generalized_M X.

Lemma body_finite_alpha alpha it s s' :
  step_state (body X A alpha it s) = Some s' -> exists a, alpha = Finite a.
Proof. by case: bodyP => [a ? ? ? -> *|a ? ? ? -> *|] //; exists a. Qed.

Lemma generalized_body_finite_alpha alpha it s s' :
  step_state (generalized_body X A M alpha it s) = Some s' ->
  exists a, alpha = Finite a.
Proof.
by case: generalized_bodyP => [a ? ? ? -> *|a ? ? ? -> *| |] //; exists a.
Qed.

Lemma ESH_manifold_run alpha lr maxiter W0opt W tr :
  ESH_manifold X Z alpha lr maxiter W0opt = Returned W tr ->
  forall W0 al s0,
  W0 = initialize_W W0opt A -> al = resolve_alpha X A alpha W0 ->
  s0 = start W0 lr maxiter ->
  exists a it s s',
    [/\ al = Finite a, (it < maxiter)%N,
        state_at (body X A al) s0 it = Some s,
        step_state (body X A al it s) = Some s' & W = W_of s']
    /\ [/\ size tr = it.+1,
           forall i, (i <= it)%N ->
             exists2 si, state_at (body X A al) s0 i = Some si
                         & nth 0 tr i = cost_fn X (W_of si) A a,
           forall i, (i < it)%N -> ~~ converged tr i
         & (it.+1 < maxiter)%N -> converged tr it].
Proof.
rewrite ESH_manifoldE => ret W0 al s0 W0E alE0 s0E.
rewrite -W0E -alE0 -s0E in ret.
have sz0 : size (cost_values_of s0) = maxiter by rewrite s0E /= size_nseq.
have [it [s [s' [[itN sit Ws trE fin] [sz costs nconv]]]]] :=
  loop_returnsP (body_records X A al) sz0 ret.
have st : step_state (body X A al it s) = Some s'.
  by case: fin => [[-> _]|[-> _ _]].
have [a alE] := body_finite_alpha st.
exists a, it, s, s'; split; split=> //.
  by move=> i /costs [si sit']; rewrite alE => ci; exists si; rewrite -?alE.
by case: fin => [[_ ->]|[_ _ <-]] //; rewrite ltnn.
Qed.

Lemma ESH_generalized_manifold_run alpha lr maxiter W tr :
  ESH_generalized_manifold X Z alpha lr maxiter = Returned W tr ->
  exists W0,
    generalized_W (eigsh M).1 (eigsh M).2 = Some W0 /\
    forall al s0,
    al = resolve_alpha X A alpha W0 -> s0 = start W0 lr maxiter ->
    exists a it s s',
      [/\ al = Finite a, (it < maxiter)%N,
          state_at (generalized_body X A M al) s0 it = Some s,
          step_state (generalized_body X A M al it s) = Some s' & W = W_of s']
      /\ [/\ size tr = it.+1,
             forall i, (i <= it)%N ->
               exists2 si, state_at (generalized_body X A M al) s0 i = Some si
                           & nth 0 tr i = cost_fn X (W_of si) A a,
             forall i, (i < it)%N -> ~~ converged tr i
           & (it.+1 < maxiter)%N -> converged tr it].
Proof.
move=> ret; have [W0 W0E] := ESH_generalized_manifold_start ret.
exists W0; split=> // al s0 alE0 s0E.
move: ret; rewrite (ESH_generalized_manifoldE Z alpha lr maxiter W0E).
rewrite -/A -/M -alE0 -s0E => ret.
have sz0 : size (cost_values_of s0) = maxiter by rewrite s0E /= size_nseq.
have [it [s [s' [[itN sit Ws trE fin] [sz costs nconv]]]]] :=
  loop_returnsP (generalized_body_records X A M al) sz0 ret.
have st : step_state (generalized_body X A M al it s) = Some s'.
  by case: fin => [[-> _]|[-> _ _]].
have [a alE] := generalized_body_finite_alpha st.
exists a, it, s, s'; split; split=> //.
  by move=> i /costs [si sit']; rewrite alE => ci; exists si; rewrite -?alE.
by case: fin => [[_ ->]|[_ _ <-]] //; rewrite ltnn.
Qed.

End RunFacts.
(** ** Convergence and termination *)

Section ConvergenceClaim.
Variables (X : 'M[T]_(n.+1, d)) (Z : 'M[T]_(n.+1, m)).
Let A := get_feature_affinity X Z.
Let M := generalized_M X.

Lemma convergedE (cv : seq T) it :
  converged cv it =
  [&& (it %% 10 == 0)%N, (0 < it)%N, nth 0 cv (it - 10)%N != 0
    & `|(nth 0 cv it - nth 0 cv (it - 10)%N) / nth 0 cv (it - 10)%N|
      < (10%:R ^+ 4)^-1].
Proof.
rewrite /converged /convg_check /truediv.
by case: (nth 0 cv (it - 10)%N =P 0) => //= _; rewrite !andbF.
Qed.

Lemma multiple_of_10_gt0 it :
  (it %% 10 == 0)%N -> (0 < it)%N = (10 <= it)%N.
Proof.
case: it => [|it] // it10; rewrite ltn0Sn; apply/esym/dvdn_leq => //.
Qed.

Lemma exhausted_returns (loop_body : nat -> state -> step) cost_at s0 N sN :
  records_costs loop_body cost_at ->
  size (cost_values_of s0) = N -> (0 < N)%N ->
  state_at loop_body s0 N = Some sN ->
  return_ (for_range loop_body (iota 0 N) None s0)
  = Returned (W_of sN) (cost_values_of sN)
  /\ size (cost_values_of sN) = N.
Proof.
move=> rc sz0 N0 sN_at; rewrite (for_range_exhausts sN_at).
have [szN _] := state_at_costs rc sz0 (leqnn N) sN_at.
by case: N N0 szN {sz0 sN_at} => // N _ szN /=; rewrite -szN take_size.
Qed.

Lemma run_stops maxiter (tr : seq T) it :
  (it < maxiter)%N -> size tr = it.+1 ->
  (forall i, (i < it)%N -> ~~ converged tr i) ->
  ((it.+1 < maxiter)%N -> converged tr it) ->
  stops_at_first_convergence maxiter tr.
Proof.
by move=> itN sz nc c; split; rewrite sz //= => i; rewrite ltnS; apply: nc.
Qed.

(** C4: in both solvers the convergence test holds at iteration [it] exactly
    when it is a positive multiple of 10 (so never before iteration 10), the
    quotient (cost[it] - cost[it-10]) / cost[it-10] is a number and its
    absolute value is below 1e-4; a returned trace has it+1 entries for the
    first iteration at which the test holds, and no entry beyond; when all
    maxiter iterations run without the test holding, the solve returns W and a
    trace of exactly maxiter entries, with no error. *)
Theorem convergence_check alpha lr maxiter :
  [/\ forall (cv : seq T) it,
        converged cv it =
        [&& (it %% 10 == 0)%N, (10 <= it)%N, nth 0 cv (it - 10)%N != 0
          & `|(nth 0 cv it - nth 0 cv (it - 10)%N) / nth 0 cv (it - 10)%N|
            < (10%:R ^+ 4)^-1],
      forall W0opt W tr,
        ESH_manifold X Z alpha lr maxiter W0opt = Returned W tr ->
        stops_at_first_convergence maxiter tr,
      forall W tr,
        ESH_generalized_manifold X Z alpha lr maxiter = Returned W tr ->
        stops_at_first_convergence maxiter tr,
      forall W0opt sN,
        let W0 := initialize_W W0opt A in
        (0 < maxiter)%N ->
        state_at (body X A (resolve_alpha X A alpha W0))
          (start W0 lr maxiter) maxiter = Some sN ->
        ESH_manifold X Z alpha lr maxiter W0opt
        = Returned (W_of sN) (cost_values_of sN)
        /\ size (cost_values_of sN) = maxiter
    & forall W0 sN,
        generalized_W (eigsh M).1 (eigsh M).2 = Some W0 ->
        (0 < maxiter)%N ->
        state_at (generalized_body X A M (resolve_alpha X A alpha W0))
          (start W0 lr maxiter) maxiter = Some sN ->
        ESH_generalized_manifold X Z alpha lr maxiter
        = Returned (W_of sN) (cost_values_of sN)
        /\ size (cost_values_of sN) = maxiter].
Proof.
split.
- move=> cv it; rewrite convergedE; case it10: (_ %% 10 == 0)%N => //=.
  by rewrite multiple_of_10_gt0.
- move=> W0opt W tr /ESH_manifold_run/(_ _ _ _ erefl erefl erefl).
  by case=> a [it [s [s' [[_ itN _ _ _] [sz _ nc c]]]]]; apply: run_stops itN sz nc c.
- move=> W tr /ESH_generalized_manifold_run [W0 [_ /(_ _ _ erefl erefl)]].
  by case=> a [it [s [s' [[_ itN _ _ _] [sz _ nc c]]]]]; apply: run_stops itN sz nc c.
- move=> W0opt sN W0 N0 sN_at; rewrite ESH_manifoldE.
  by apply: exhausted_returns (body_records X A _) _ N0 sN_at; rewrite /= size_nseq.
- move=> W0 sN W0E N0 sN_at; rewrite (ESH_generalized_manifoldE Z alpha lr maxiter W0E).
  apply: exhausted_returns (generalized_body_records X A M _) _ N0 sN_at.
  by rewrite /= size_nseq.
Qed.

End ConvergenceClaim.
Section TraceClaims.
Variables (X : 'M[T]_(n.+1, d)) (Z : 'M[T]_(n.+1, m)).
Let A := get_feature_affinity X Z.
Let M := generalized_M X.

(** C10: when either solver returns, its final iteration started from a
    state s with the point W_pre = W_of s and the step size lr' = lr_of s;
    the last trace entry is the cost at W_pre, and the returned W is Q W_pre
    for the Cayley factor Q = (I + (lr'/2) F)^-1 (I - (lr'/2) F) that this
    iteration builds from its step size and from the gradient G at W_pre.
    Every trace entry is the cost of the point an iteration started from, so
    the entries are the costs of the pre-update points only and the returned
    W is one update past the last of them: no entry is computed from the
    returned W. *)
Theorem returned_W_one_update_past_last_cost alpha lr maxiter :
  (forall W0opt W tr,
     ESH_manifold X Z alpha lr maxiter W0opt = Returned W tr ->
     let W0 := initialize_W W0opt A in
     let al := resolve_alpha X A alpha W0 in
     exists a s lr' G Q,
       [/\ al = Finite a
           /\ state_at (body X A al) (start W0 lr maxiter) (size tr).-1
              = Some s,
           last 0 tr = cost_fn X (W_of s) A a,
           lr_of s = Finite lr' /\ tape_gradient X (W_of s) A a = Some G,
           cayley lr' (compute_F G (W_of s)) = Some Q
         & W = Q *m W_of s]
       /\ forall i, (i < size tr)%N ->
            exists2 si, state_at (body X A al) (start W0 lr maxiter) i
                        = Some si
                        & nth 0 tr i = cost_fn X (W_of si) A a)
  /\ (forall W tr,
        ESH_generalized_manifold X Z alpha lr maxiter = Returned W tr ->
        exists W0 a s G Q,
          let al := resolve_alpha X A alpha W0 in
          [/\ [/\ generalized_W (eigsh M).1 (eigsh M).2 = Some W0,
                   al = Finite a
                 & state_at (generalized_body X A M al)
                     (start W0 lr maxiter) (size tr).-1 = Some s],
              last 0 tr = cost_fn X (W_of s) A a,
              lr_of s = Finite lr /\ tape_gradient X (W_of s) A a = Some G,
              cayley lr (compute_generalized_F G (W_of s) M) = Some Q
            & W = Q *m W_of s]
          /\ forall i, (i < size tr)%N ->
               exists2 si, state_at (generalized_body X A M al)
                             (start W0 lr maxiter) i = Some si
                           & nth 0 tr i = cost_fn X (W_of si) A a).
Proof.
split=> [W0opt W tr ret W0 al|W tr ret].
- have [a [it [s [s' [[alE itN sit st WE] [sz costs _ _]]]]]] :=
    ESH_manifold_run ret (erefl W0) (erefl al) erefl.
  have lastE : last 0 tr = cost_fn X (W_of s) A a.
    have [si] := costs it (leqnn it); rewrite sit => -[<-].
    by rewrite -nth_last sz.
  move: st WE; rewrite alE in sit costs *.
  case: bodyP => [a' lr' G Q [<-] lrs tg cQ _|a' lr' G Q [<-] lrs tg cQ _|_] //=;
    move=> [<-] /= ->; exists a, s, lr', G, Q;
    (split; last by move=> i; rewrite sz ltnS; apply: costs);
    by split=> //; split=> //; rewrite sz /=.
- have [W0 [W0E /(_ _ _ erefl erefl)]] := ESH_generalized_manifold_run ret.
  move=> [a [it [s [s' [[alE itN sit st WE] [sz costs _ _]]]]]].
  have lastE : last 0 tr = cost_fn X (W_of s) A a.
    have [si] := costs it (leqnn it); rewrite sit => -[<-].
    by rewrite -nth_last sz.
  have lrs : lr_of s = Finite lr.
    apply: (state_at_invariant (P := fun s1 => lr_of s1 = Finite lr) _ _ sit) => //.
    move=> k s1 s2 <-.
    by case: generalized_bodyP
         => [? ? ? ? _ -> _ _ _|? ? ? ? _ -> _ _ _| |] //= [<-].
  move: st WE; rewrite alE in sit costs *.
  case: generalized_bodyP
      => [a' lr' G Q [<-] lrs' tg cQ _|a' lr' G Q [<-] lrs' tg cQ _|//|_] //=;
    move=> [<-] /= ->; exists W0, a, s, G, Q; rewrite /= alE;
    move: lrs' cQ; rewrite lrs => -[<-] cQ;
    (split; last by move=> i; rewrite sz ltnS; apply: costs);
    by split=> //; split=> //; rewrite sz /=.
Qed.

Lemma ESH_manifold_returns_orthonormal alpha lr maxiter W0 W tr :
  orthonormal W0 ->
  ESH_manifold X Z alpha lr maxiter (Some W0) = Returned W tr ->
  orthonormal W.
Proof.
move=> oW0 ret.
have [a [it [s [s' [[_ _ sit st ->] _]]]]] :=
  ESH_manifold_run ret (erefl _) (erefl _) (erefl _).
apply: body_orthonormal st.
apply: (state_at_invariant (P := fun s1 => orthonormal (W_of s1)) _ _ sit) => //.
by move=> k s1 s2; apply: body_orthonormal.
Qed.

End TraceClaims.
(** ** The regularization weight *)

Section AlphaClaims.
Variables (X : 'M[T]_(n.+1, d)) (Z : 'M[T]_(n.+1, m)).
Let A := get_feature_affinity X Z.
Let M := generalized_M X.

Lemma compute_alphaE (W : 'M[T]_(d, K)) (B : 'M[T]_d) :
  compute_alpha X W B =
  truediv_abs (2%:R * - \tr (W^T *m B *m W))
    (frobenius_norm (map_mx Num.norm (X *m W) - const_mx 1) ^+ 2).
Proof.
rewrite /compute_alpha /truediv_abs /truediv abs_minus_one norm_fro_frobenius.
by rewrite mulN1r mulmxA; case: ifP.
Qed.

Lemma trace_gram_ge0 p q (B : 'M[T]_(p, q)) : 0 <= \tr (B^T *m B).
Proof.
rewrite /mxtrace; apply: sumr_ge0 => i _; rewrite mxE.
by apply: sumr_ge0 => j _; rewrite mxE -expr2 sqr_ge0.
Qed.

Lemma affinity_main_cost_le0 (W : 'M[T]_(d, K)) : - \tr (W^T *m A *m W) <= 0.
Proof.
rewrite oppr_le0 /A /get_feature_affinity /=.
set L := X^T *m normalize_Z Z.
have -> : W^T *m (L *m L^T) *m W = (L^T *m W)^T *m (L^T *m W).
  by rewrite trmx_mul trmxK !mulmxA.
exact: trace_gram_ge0.
Qed.

Lemma compute_alpha_finite (W : 'M[T]_(d, K)) (B : 'M[T]_d) :
  let main_cost := - \tr (W^T *m B *m W) in
  let reg := frobenius_norm (map_mx Num.norm (X *m W) - const_mx 1) ^+ 2 in
  reg != 0 -> compute_alpha X W B = Finite `|2%:R * main_cost / reg|.
Proof.
by move=> mc reg reg0; rewrite compute_alphaE /truediv_abs (negbTE reg0).
Qed.

Lemma trace_costs alpha lr maxiter W0opt W tr a :
  ESH_manifold X Z alpha lr maxiter W0opt = Returned W tr ->
  resolve_alpha X A alpha (initialize_W W0opt A) = Finite a ->
  forall i, (i < size tr)%N ->
    exists2 si, state_at (body X A (Finite a))
                  (start (initialize_W W0opt A) lr maxiter) i = Some si
                & nth 0 tr i = cost_fn X (W_of si) A a.
Proof.
move=> ret alE i.
have [a' [it [s [s' [[]]]]]] :=
  ESH_manifold_run ret (erefl _) (erefl _) (erefl _).
rewrite alE => -[<-] itN sit st WE [sz costs _ _].
by rewrite sz ltnS; apply: costs.
Qed.

Lemma generalized_trace_costs alpha lr maxiter W0 W tr a :
  generalized_W (eigsh M).1 (eigsh M).2 = Some W0 ->
  ESH_generalized_manifold X Z alpha lr maxiter = Returned W tr ->
  resolve_alpha X A alpha W0 = Finite a ->
  forall i, (i < size tr)%N ->
    exists2 si, state_at (generalized_body X A M (Finite a))
                  (start W0 lr maxiter) i = Some si
                & nth 0 tr i = cost_fn X (W_of si) A a.
Proof.
move=> W0E ret alE i.
have [W0' []] := ESH_generalized_manifold_run ret.
rewrite -/M W0E => -[<-] /(_ _ _ erefl erefl) [a' [it [s [s' [[]]]]]].
rewrite alE => -[<-] itN sit st WE [sz costs _ _].
by rewrite sz ltnS; apply: costs.
Qed.

Lemma first_cost_selected (W0 : 'M[T]_(d, K)) :
  let main_cost := - \tr (W0^T *m A *m W0) in
  let reg := frobenius_norm (map_mx Num.norm (X *m W0) - const_mx 1) ^+ 2 in
  0 < reg ->
  [/\ cost_fn X W0 A `|2%:R * main_cost / reg|
      = (main_cost + `|main_cost|) / n.+1%:R,
      main_cost <= 0
    & cost_fn X W0 A `|2%:R * main_cost / reg| = 0].
Proof.
move=> main_cost reg reg_gt0.
have le0 : main_cost <= 0 by apply: affinity_main_cost_le0.
have c0E : cost_fn X W0 A `|2%:R * main_cost / reg|
           = (main_cost + `|main_cost|) / n.+1%:R.
  rewrite cost_fnE /cost_spec -/main_cost -/reg.
  congr ((_ + _) / _).
  rewrite normrM normfV (gtr0_norm reg_gt0) normrM normr_nat.
  by rewrite mulrA mulrA mulVf ?pnatr_eq0 // mul1r mulfVK // gt_eqF.
by split=> //; rewrite c0E ler0_norm // subrr mul0r.
Qed.

(** C6: when alpha is None and the penalty reg at the initial W is not zero,
    the weight is |2 main_cost / reg| computed from the initial W, the solve
    is the very solve run with that number passed as alpha, and every cost it
    records, at whichever iteration, is evaluated with that same number; in
    the plain and in the generalized solver. *)
Theorem alpha_computed_once lr maxiter :
  (forall W0opt,
     let W0 := initialize_W W0opt A in
     let main_cost := - \tr (W0^T *m A *m W0) in
     let reg :=
       frobenius_norm (map_mx Num.norm (X *m W0) - const_mx 1) ^+ 2 in
     let alpha := `|2%:R * main_cost / reg| in
     reg != 0 ->
     [/\ compute_alpha X W0 A = Finite alpha,
         ESH_manifold X Z None lr maxiter W0opt
         = ESH_manifold X Z (Some alpha) lr maxiter W0opt
       & forall W tr,
           ESH_manifold X Z None lr maxiter W0opt = Returned W tr ->
           forall i, (i < size tr)%N ->
             exists2 si, state_at (body X A (Finite alpha))
                           (start W0 lr maxiter) i = Some si
                         & nth 0 tr i = cost_fn X (W_of si) A alpha])
  /\ (forall W0,
        generalized_W (eigsh M).1 (eigsh M).2 = Some W0 ->
        let main_cost := - \tr (W0^T *m A *m W0) in
        let reg :=
          frobenius_norm (map_mx Num.norm (X *m W0) - const_mx 1) ^+ 2 in
        let alpha := `|2%:R * main_cost / reg| in
        reg != 0 ->
        [/\ compute_alpha X W0 A = Finite alpha,
            ESH_generalized_manifold X Z None lr maxiter
            = ESH_generalized_manifold X Z (Some alpha) lr maxiter
          & forall W tr,
              ESH_generalized_manifold X Z None lr maxiter = Returned W tr ->
              forall i, (i < size tr)%N ->
                exists2 si, state_at (generalized_body X A M (Finite alpha))
                              (start W0 lr maxiter) i = Some si
                            & nth 0 tr i = cost_fn X (W_of si) A alpha]).
Proof.
split=> [W0opt W0|W0 W0E] main_cost reg alpha reg0.
- have caE : compute_alpha X W0 A = Finite alpha.
    exact: compute_alpha_finite.
  have solveE : ESH_manifold X Z None lr maxiter W0opt
                = ESH_manifold X Z (Some alpha) lr maxiter W0opt.
    by rewrite !ESH_manifoldE /= -/A -/W0 caE.
  by split=> // W tr ret i; apply: (trace_costs ret caE).
- have caE : compute_alpha X W0 A = Finite alpha.
    exact: compute_alpha_finite.
  have solveE : ESH_generalized_manifold X Z None lr maxiter
                = ESH_generalized_manifold X Z (Some alpha) lr maxiter.
    by rewrite !(ESH_generalized_manifoldE Z _ lr maxiter W0E) /= -/A caE.
  by split=> // W tr ret i; apply: (generalized_trace_costs W0E ret caE).
Qed.

(** C9: when a solve run with alpha = None returns and reg > 0 at the initial
    W0, the first trace entry is (main + |main|) / n with
    main = -trace(W0^T A W0); main <= 0 because A = L L^T, so the entry is 0;
    in the plain and in the generalized solver. *)
Theorem first_cost_with_selected_alpha lr maxiter :
  (forall W0opt W tr,
     let W0 := initialize_W W0opt A in
     let main_cost := - \tr (W0^T *m A *m W0) in
     let reg :=
       frobenius_norm (map_mx Num.norm (X *m W0) - const_mx 1) ^+ 2 in
     0 < reg ->
     ESH_manifold X Z None lr maxiter W0opt = Returned W tr ->
     [/\ (0 < size tr)%N,
         nth 0 tr 0 = (main_cost + `|main_cost|) / n.+1%:R,
         main_cost <= 0
       & nth 0 tr 0 = 0])
  /\ (forall W0 W tr,
        generalized_W (eigsh M).1 (eigsh M).2 = Some W0 ->
        let main_cost := - \tr (W0^T *m A *m W0) in
        let reg :=
          frobenius_norm (map_mx Num.norm (X *m W0) - const_mx 1) ^+ 2 in
        0 < reg ->
        ESH_generalized_manifold X Z None lr maxiter = Returned W tr ->
        [/\ (0 < size tr)%N,
            nth 0 tr 0 = (main_cost + `|main_cost|) / n.+1%:R,
            main_cost <= 0
          & nth 0 tr 0 = 0]).
Proof.
split=> [W0opt W tr W0|W0 W tr W0E] main_cost reg reg_gt0 ret.
- have caE : compute_alpha X W0 A = Finite `|2%:R * main_cost / reg|.
    by apply: compute_alpha_finite; rewrite gt_eqF.
  have [a [it [s [s' [_ [sz _ _ _]]]]]] :=
    ESH_manifold_run ret (erefl _) (erefl _) (erefl _).
  have tr0 : (0 < size tr)%N by rewrite sz.
  have [s0 [<-] /= ->] := trace_costs ret caE tr0.
  by have [] := first_cost_selected reg_gt0.
- have caE : compute_alpha X W0 A = Finite `|2%:R * main_cost / reg|.
    by apply: compute_alpha_finite; rewrite gt_eqF.
  have [W0' [_ /(_ _ _ erefl erefl) [a [it [s [s' [_ [sz _ _ _]]]]]]]] :=
    ESH_generalized_manifold_run ret.
  have tr0 : (0 < size tr)%N by rewrite sz.
  have [s0 [<-] /= ->] := generalized_trace_costs W0E ret caE tr0.
  by have [] := first_cost_selected reg_gt0.
Qed.

End AlphaClaims.
(** ** The step size and numerical failures *)

Section StepSizeClaims.
Variables (X : 'M[T]_(n.+1, d)) (A M : 'M[T]_d).

Lemma generalized_body_lr alpha it s s' :
  step_state (generalized_body X A M alpha it s) = Some s' ->
  lr_of s' = lr_of s.
Proof.
by case: generalized_bodyP => [a lr G Q _ -> _ _ _|a lr G Q _ -> _ _ _| |] //= [<-].
Qed.

(** C7: in the generalized solver every iteration starts with the step size
    the caller passed and leaves it unchanged: lr is never updated. *)
Theorem generalized_lr_never_updated alpha lr maxiter W0 k s :
  state_at (generalized_body X A M alpha) (start W0 lr maxiter) k = Some s ->
  lr_of s = Finite lr
  /\ forall s', step_state (generalized_body X A M alpha k s) = Some s' ->
       lr_of s' = Finite lr.
Proof.
move=> sk.
have lrs : lr_of s = Finite lr.
  apply: (state_at_invariant (P := fun s1 => lr_of s1 = Finite lr) _ _ sk) => //.
  by move=> it s1 s2 <-; apply: generalized_body_lr.
by split=> // s' /generalized_body_lr ->.
Qed.

Lemma lr_updateE (G W W_old : 'M[T]_(d, K)) :
  lr_update G W W_old = lr_update_spec G G W W_old.
Proof. by rewrite /lr_update /lr_update_spec /truediv_abs /truediv; case: ifP. Qed.

(** C2 (amended): an iteration of the plain solver that does not stop at the
    convergence test ends by setting lr = | trace(M_it^T Y_it) /
    trace(Y_it^T Y_it) | with M_it = W - W_old and
    Y_it = grad_J(G, W) - grad_J(G, W_old), where G is the one gradient of the
    iteration, evaluated at W_old before the update, used in both terms; an
    iteration that stops at the convergence test leaves lr as it was. *)
Theorem lr_update_uses_old_gradient alpha it s s' :
  step_state (body X A alpha it s) = Some s' ->
  exists a G,
    [/\ alpha = Finite a,
        tape_gradient X (W_of s) A a = Some G,
        body X A alpha it s = Next s' ->
          lr_of s' = lr_update_spec G G (W_of s') (W_of s)
      & body X A alpha it s = Break s' -> lr_of s' = lr_of s].
Proof.
case: bodyP => [a lr G Q al lrs tg _ _|a lr G Q al lrs tg _ _|_] //= [<-];
  exists a, G; split=> //= _; by rewrite ?lr_updateE.
Qed.

Lemma generalized_body_singular alpha a lr G it (s : state) :
  alpha = Finite a -> lr_of s = Finite lr ->
  tape_gradient X (W_of s) A a = Some G ->
  1%:M + (lr * half) *: compute_generalized_F G (W_of s) M \notin unitmx ->
  generalized_body X A M alpha it s = Raise InvalidArgumentError.
Proof.
move=> al lrs tg nu.
by rewrite /generalized_body al lrs tg /cayley /inv (negbTE nu).
Qed.

Lemma zero_denominator_step alpha it (s s' : state) a G :
  body X A alpha it s = Next s' ->
  alpha = Finite a -> tape_gradient X (W_of s) A a = Some G ->
  \tr ((grad_J G (W_of s') - grad_J G (W_of s))^T
       *m (grad_J G (W_of s') - grad_J G (W_of s))) = 0 ->
  lr_of s' = NotFinite.
Proof.
move=> bN al tg; rewrite al in bN; move: bN.
case: bodyP => [a' lr' G' Q [<-] lrs tg' cQ nc| |] // [<-] /=.
move: tg'; rewrite tg => -[<-].
by rewrite lr_updateE /lr_update_spec /truediv_abs => ->; rewrite eqxx.
Qed.

Lemma not_finite_step alpha it (s : state) :
  [\/ alpha = NotFinite, lr_of s = NotFinite
    | exists2 a, alpha = Finite a & tape_gradient X (W_of s) A a = None] ->
  body X A alpha it s = Raise InvalidArgumentError
  /\ generalized_body X A M alpha it s = Raise InvalidArgumentError.
Proof.
rewrite /body /generalized_body; case=> [->|lrs|[a -> tg]] //.
  by rewrite lrs; case: alpha.
by rewrite tg; case: (lr_of s).
Qed.

End StepSizeClaims.
(** ** Numerical failures *)

Section FailureClaims.
Variables (X : 'M[T]_(n.+1, d)) (Z : 'M[T]_(n.+1, m)).
Let A := get_feature_affinity X Z.
Let M := generalized_M X.

Lemma generalized_M_sym : M^T = M.
Proof.
rewrite /M /generalized_M /= linearD /= !linearZ /= trmx1.
by rewrite trmx_mul trmxK.
Qed.

Lemma generalized_M_form_eq0 (v : 'rV[T]_d) : v *m M *m v^T = 0 -> v = 0.
Proof.
rewrite /M /generalized_M /= mulmxDr mulmxDl -!scalemxAr -!scalemxAl mulmx1.
have -> : v *m (X^T *m X) *m v^T = (X *m v^T)^T *m (X *m v^T).
  by rewrite trmx_mul trmxK !mulmxA.
move=> /matrixP /(_ 0 0); rewrite !mxE => /eqP.
have ge1 : 0 <= n.+1%:R^-1 * \sum_j (X *m v^T)^T 0 j * (X *m v^T) j 0.
  apply: mulr_ge0; first by rewrite invr_ge0 ler0n.
  by apply: sumr_ge0 => i _; rewrite !mxE -expr2 sqr_ge0.
have ge2 : 0 <= 100%:R^-1 * \sum_j v 0 j * v^T j 0.
  apply: mulr_ge0; first by rewrite invr_ge0 ler0n.
  by apply: sumr_ge0 => i _; rewrite !mxE -expr2 sqr_ge0.
rewrite (paddr_eq0 ge1 ge2) => /andP[_].
rewrite mulf_eq0 invr_eq0 pnatr_eq0 /= => /eqP vv.
by apply: row_sq_eq0; apply/matrixP => i j; rewrite !ord1 !mxE.
Qed.

Lemma tr_generalized_cayley_factor c (S : 'M[T]_d) :
  S^T = - S -> (1%:M + c *: (S *m M))^T = 1%:M - c *: (M *m S).
Proof.
move=> skS; rewrite linearD /= trmx1 linearZ /= trmx_mul generalized_M_sym skS.
by rewrite mulmxN; congr (_ + _); apply/matrixP => i j; rewrite !mxE mulrN.
Qed.

Lemma generalized_cayley_factor_unit c (S : 'M[T]_d) :
  S^T = - S -> 1%:M + c *: (S *m M) \in unitmx.
Proof.
move=> skS; rewrite -unitmx_tr -row_free_unit tr_generalized_cayley_factor //.
apply/inj_row_free => v; rewrite mulmxBr mulmx1 => /eqP.
rewrite subr_eq0 -scalemxAr => /eqP vE.
apply: generalized_M_form_eq0.
have -> : v *m M *m v^T = c *: (v *m M *m S *m (v *m M)^T).
  rewrite {1}vE -!scalemxAl trmx_mul generalized_M_sym; congr (_ *: _).
  by rewrite !mulmxA.
rewrite skew_quadratic_form //.
by apply/matrixP => i j; rewrite !mxE mulr0.
Qed.

Lemma generalized_body_raises alpha it s x :
  generalized_body X A M alpha it s = Raise x ->
  x = InvalidArgumentError
  /\ [\/ alpha = NotFinite, lr_of s = NotFinite
        | exists2 a, alpha = Finite a & tape_gradient X (W_of s) A a = None].
Proof.
case: generalized_bodyP => // [a lr G _ _ _|nf [<-] //].
rewrite /cayley /inv /compute_generalized_F /=.
by rewrite generalized_cayley_factor_unit //; apply: skew_sub_tr.
Qed.

Lemma loop_raises (loop_body : nat -> state -> step) N s0 x :
  return_ (for_range loop_body (iota 0 N) None s0) = Raised x ->
  (x = UnboundLocalError /\ N = 0%N)
  \/ exists it s,
       [/\ (it < N)%N, state_at loop_body s0 it = Some s
         & loop_body it s = Raise x].
Proof.
case: (@for_rangeP loop_body s0 0 N None s0 (erefl _)) => //.
- by case: N => [|N] s //= _ [<-]; left.
- by move=> it s y /andP[_ itN] sit bit [<-]; right; exists it, s.
Qed.

(** C3 (amended): the matrix inversion is the one operation of an iteration
    that can raise, and the solve passes its error on to the caller.  It
    raises InvalidArgumentError on a non-invertible Cayley factor, and equally
    when alpha, lr or the gradient is not finite, since the factor, which has
    entries when there is a feature and a bit, then holds a NaN; nothing else
    makes an iteration raise (in exact arithmetic the
    factor of numbers is always invertible: F is skew-symmetric, and
    skew-symmetric times the positive definite M in the generalized solver),
    and a solve raises UnboundLocalError only for maxiter = 0.  A zero
    denominator trace(Y_it^T Y_it) in the step-size update raises nothing
    where it happens: the iteration completes with W updated and a lr that is
    not finite; when it is the last iteration the solve returns W and the
    trace, otherwise the next iteration raises InvalidArgumentError at the
    inversion. *)
Theorem numerical_failures alpha lr maxiter :
  [/\ forall (M' : 'M[T]_d) al a lr' G it (s : state),
        al = Finite a -> lr_of s = Finite lr' ->
        tape_gradient X (W_of s) A a = Some G ->
        1%:M + (lr' * half) *: compute_generalized_F G (W_of s) M'
          \notin unitmx ->
        generalized_body X A M' al it s = Raise InvalidArgumentError
        /\ forall its last,
             return_ (for_range (generalized_body X A M' al) (it :: its)
                        last s) = Raised InvalidArgumentError,
      forall al it (s : state),
        (0 < d)%N -> (0 < K)%N ->
        [\/ al = NotFinite, lr_of s = NotFinite
          | exists2 a, al = Finite a & tape_gradient X (W_of s) A a = None] ->
        [/\ body X A al it s = Raise InvalidArgumentError,
            generalized_body X A M al it s = Raise InvalidArgumentError,
            forall its last,
              return_ (for_range (body X A al) (it :: its) last s)
              = Raised InvalidArgumentError
          & forall its last,
              return_ (for_range (generalized_body X A M al) (it :: its)
                         last s)
              = Raised InvalidArgumentError],
      forall al it (s : state) x,
        body X A al it s = Raise x \/ generalized_body X A M al it s = Raise x ->
        x = InvalidArgumentError
        /\ [\/ al = NotFinite, lr_of s = NotFinite
              | exists2 a, al = Finite a
                           & tape_gradient X (W_of s) A a = None],
      forall x,
        (forall W0opt, ESH_manifold X Z alpha lr maxiter W0opt = Raised x ->
           (x = UnboundLocalError /\ maxiter = 0%N)
           \/ (x = InvalidArgumentError /\ (0 < maxiter)%N))
        /\ (ESH_generalized_manifold X Z alpha lr maxiter = Raised x ->
              (x = UnboundLocalError /\ maxiter = 0%N)
              \/ (x = InvalidArgumentError /\ (0 < maxiter)%N))
    & forall al it (s s' : state) a G,
        body X A al it s = Next s' ->
        al = Finite a -> tape_gradient X (W_of s) A a = Some G ->
        \tr ((grad_J G (W_of s') - grad_J G (W_of s))^T
             *m (grad_J G (W_of s') - grad_J G (W_of s))) = 0 ->
        [/\ lr_of s' = NotFinite,
            forall last,
              return_ (for_range (body X A al) [:: it] last s)
              = Returned (W_of s') (take it.+1 (cost_values_of s'))
          & (0 < d)%N ->
            forall it' its last,
              return_ (for_range (body X A al) (it :: it' :: its) last s)
              = Raised InvalidArgumentError]].
Proof.
split.
- move=> M' al a lr' G it s al_a lrs tg nu.
  have gb := generalized_body_singular it al_a lrs tg nu.
  by split=> // its last; rewrite for_range_cons gb.
- move=> al it s _ _ nf; have [b gb] := @not_finite_step X A M _ it _ nf.
  by split=> // its last; rewrite for_range_cons ?b ?gb.
- by move=> al it s x [/body_raises|/generalized_body_raises].
- move=> x; split=> [W0opt|].
    rewrite ESH_manifoldE => /loop_raises[[-> ->]|[it [s [itN _]]]]; first by left.
    by case/body_raises => -> _; right; split=> //; apply: leq_ltn_trans itN.
  rewrite /ESH_generalized_manifold -/M -/A; case: (eigsh M) => ev eV.
  case: (generalized_W ev eV) => [W0|]; last first.
    by case: maxiter => [|k] [<-]; [left | right].
  case/loop_raises => [[-> ->]|[it [s [itN _]]]]; first by left.
  by case/generalized_body_raises => -> _; right; split=> //; apply: leq_ltn_trans itN.
- move=> al it s s' a G bN al_a tg Y0.
  have lrs' := zero_denominator_step bN al_a tg Y0.
  split=> // [last|_ it' its last]; rewrite for_range_cons bN //.
  have [b _] := @not_finite_step X A M al it' _ (Or32 _ _ lrs').
  by rewrite for_range_cons b.
Qed.

End FailureClaims.
(** ** The initial point of the generalized solver *)

Section GeneralizedInit.
Variables (X : 'M[T]_(n.+1, d)) (Z : 'M[T]_(n.+1, m)).
Let A := get_feature_affinity X Z.
Let M := generalized_M X.

Lemma generalized_M_quadratic (V : 'M[T]_(d, K)) j :
  V^T *m V = 1%:M ->
  (V^T *m M *m V) j j
  = n.+1%:R^-1 * \sum_i (X *m V) i j ^+ 2 + 100%:R^-1.
Proof.
move=> oV; rewrite /M /generalized_M /= mulmxDr mulmxDl.
rewrite -scalemxAr -scalemxAl -scalemxAr -scalemxAl mulmx1 oV.
have -> : V^T *m (X^T *m X) *m V = (X *m V)^T *m (X *m V).
  by rewrite trmx_mul !mulmxA.
rewrite !mxE eqxx mulr1; congr (_ * _ + _).
by apply: eq_bigr => i _; rewrite !mxE -expr2.
Qed.

Lemma exact_eigenvalues_gt0 (eig_val : 'rV[T]_K) (eig_vec : 'M[T]_(d, K)) :
  M *m eig_vec = eig_vec *m diag_mx eig_val ->
  eig_vec^T *m eig_vec = 1%:M ->
  forall j, 0 < eig_val 0 j.
Proof.
move=> MV oV j.
have <- : (eig_vec^T *m M *m eig_vec) j j = eig_val 0 j.
  by rewrite -mulmxA MV mulmxA oV mul1mx mxE eqxx.
rewrite generalized_M_quadratic //; apply: ltr_wpDl; last by rewrite invr_gt0 ltr0n.
by rewrite mulr_ge0 ?invr_ge0 ?ler0n //; apply: sumr_ge0 => i _; apply: sqr_ge0.
Qed.

(** C8: the generalized solver starts from M = X^T X / n + 0.01 I and, given
    exact orthonormal eigenvectors eig_vec of M with eigenvalues eig_val, from
    W = eig_vec / sqrt(eig_val) (column j divided by sqrt(eig_val_j)); this W
    exists (the eigenvalues are positive) and satisfies W^T M W = I_K. *)
Theorem generalized_initial_W (eig_val : 'rV[T]_K) (eig_vec : 'M[T]_(d, K)) :
  eigsh (generalized_M X) = (eig_val, eig_vec) ->
  generalized_M X *m eig_vec = eig_vec *m diag_mx eig_val ->
  eig_vec^T *m eig_vec = 1%:M ->
  exists2 W,
    generalized_W eig_val eig_vec = Some W
    & [/\ generalized_M X = n.+1%:R^-1 *: (X^T *m X) + 100%:R^-1 *: 1%:M,
          forall i j, W i j = eig_vec i j / Num.sqrt (eig_val 0 j),
          W^T *m generalized_M X *m W = 1%:M
        & forall alpha lr maxiter,
            ESH_generalized_manifold X Z alpha lr maxiter
            = return_ (for_range
                         (generalized_body X A (generalized_M X)
                            (resolve_alpha X A alpha W))
                         (iota 0 maxiter) None (start W lr maxiter))].
Proof.
move=> eigE MV oV; have pos := exact_eigenvalues_gt0 MV oV.
have WE : generalized_W eig_val eig_vec
          = Some (\matrix_(i, j) (eig_vec i j / Num.sqrt (eig_val 0 j))).
  by rewrite /generalized_W; case: forallP.
eexists; first exact: WE.
set W := \matrix_(i, j) _.
split=> //; first by move=> i j; rewrite mxE.
  pose D : 'rV[T]_K := \row_j (Num.sqrt (eig_val 0 j))^-1.
  have -> : W = eig_vec *m diag_mx D.
    by apply/matrixP => i j; rewrite mul_mx_diag !mxE.
  rewrite trmx_mul tr_diag_mx -!mulmxA [generalized_M X *m _]mulmxA MV.
  rewrite -mulmxA [eig_vec^T *m _]mulmxA oV mul1mx !mulmx_diag.
  rewrite -[RHS]diag_const_mx; congr diag_mx; apply/rowP => j; rewrite !mxE.
  rewrite mulrCA -invfM -expr2 sqr_sqrtr ?ltW // mulfV //.
  by rewrite gt_eqF.
move=> alpha lr maxiter; apply: ESH_generalized_manifoldE.
by rewrite eigE.
Qed.

End GeneralizedInit.
End Solvers.

(** The gradient of [cost_fn] with respect to [W] as reverse-mode
    differentiation computes it, a matrix of numbers at every point: the
    derivative of [abs] is [sign], and the penalty contributes
    alpha X^T ((|P| - 1) sign P), which is zero where the penalty is zero.
    Used for the concrete runs below. *)
Definition cost_fn_gradient n d K (train_features : 'M[T]_(n.+1, d))
    (W : 'M[T]_(d, K)) (Affinity : 'M[T]_d) (alpha : T) :
    option 'M[T]_(d, K) :=
  let P := train_features *m W in
  Some (n.+1%:R^-1 *:
          (- (Affinity *m W + Affinity^T *m W)
           + alpha *: (train_features^T *m
                         map_mx (fun p => (`|p| - 1) * Num.sg p) P))).

(** ** Iterations that leave W in place *)

Section StationaryStep.
Variables (n d K : nat).
Variable tape_gradient :
  'M[T]_(n.+1, d) -> 'M[T]_(d, K) -> 'M[T]_d -> T -> option 'M[T]_(d, K).
Variables (X : 'M[T]_(n.+1, d)) (A : 'M[T]_d).

Lemma cayley_0 lr : cayley lr (0 : 'M[T]_d) = Some 1%:M.
Proof.
by rewrite /cayley /inv scaler0 addr0 subr0 unitmx1 invmx1 mulmx1.
Qed.

Lemma lr_update_same (G W : 'M[T]_(d, K)) : lr_update G W W = NotFinite.
Proof.
by rewrite /lr_update !subrr trmx0 mulmx0 mxtrace0 /truediv eqxx.
Qed.

Lemma converged_0 (cv : seq T) : converged cv 0 = false.
Proof. by []. Qed.

Lemma body_stationary a lr G it (s : state d K) :
  lr_of s = Finite lr -> tape_gradient X (W_of s) A a = Some G ->
  compute_F G (W_of s) = 0 ->
  ~~ converged (set_nth 0 (cost_values_of s) it (cost_fn X (W_of s) A a)) it ->
  body tape_gradient X A (Finite a) it s
  = Next (State (W_of s) NotFinite
            (set_nth 0 (cost_values_of s) it (cost_fn X (W_of s) A a))).
Proof.
move=> lrs tg F0 nc; rewrite /body lrs tg F0 cayley_0 (negbTE nc) mul1mx.
by rewrite lr_update_same.
Qed.

Lemma generalized_body_stationary (M : 'M[T]_d) a lr G it (s : state d K) :
  lr_of s = Finite lr -> tape_gradient X (W_of s) A a = Some G ->
  compute_generalized_F G (W_of s) M = 0 ->
  ~~ converged (set_nth 0 (cost_values_of s) it (cost_fn X (W_of s) A a)) it ->
  generalized_body tape_gradient X A M (Finite a) it s
  = Next (State (W_of s) (Finite lr)
            (set_nth 0 (cost_values_of s) it (cost_fn X (W_of s) A a))).
Proof.
move=> lrs tg F0 nc.
by rewrite /generalized_body lrs tg F0 cayley_0 (negbTE nc) mul1mx.
Qed.

End StationaryStep.

Section OneFeature.
Variables (n K : nat).

Lemma tr_mx11 (B : 'M[T]_1) : B^T = B.
Proof. by apply/matrixP => i j; rewrite mxE !ord1. Qed.

Lemma compute_F_one_feature (G W : 'M[T]_(1, K)) : compute_F G W = 0.
Proof. by rewrite /compute_F /= tr_mx11 subrr. Qed.

Lemma compute_generalized_F_one_feature (G W : 'M[T]_(1, K)) (M : 'M[T]_1) :
  compute_generalized_F G W M = 0.
Proof. by rewrite /compute_generalized_F /= tr_mx11 subrr mul0mx. Qed.

End OneFeature.

Section OneFeatureSolve.
Variables (n m K : nat).
Variable normalize_Z : 'M[T]_(n.+1, m) -> 'M[T]_(n.+1, m).
Variable eigsh : 'M[T]_1 -> 'rV[T]_K * 'M[T]_(1, K).
Variable tape_gradient :
  'M[T]_(n.+1, 1) -> 'M[T]_(1, K) -> 'M[T]_1 -> T -> option 'M[T]_(1, K).
Variables (X : 'M[T]_(n.+1, 1)) (Z : 'M[T]_(n.+1, m)).

Lemma body_one_feature_first A a lr G (W : 'M[T]_(1, K)) :
  tape_gradient X W A a = Some G ->
  body tape_gradient X A (Finite a) 0 (start W lr 1)
  = Next (State W NotFinite [:: cost_fn X W A a]).
Proof.
move=> tg.
by rewrite (@body_stationary _ _ _ _ _ _ a lr G) ?compute_F_one_feature.
Qed.

Lemma generalized_body_one_feature_first A M a lr G (W : 'M[T]_(1, K)) :
  tape_gradient X W A a = Some G ->
  generalized_body tape_gradient X A M (Finite a) 0 (start W lr 1)
  = Next (State W (Finite lr) [:: cost_fn X W A a]).
Proof.
move=> tg.
by rewrite (@generalized_body_stationary _ _ _ _ _ _ _ a lr G)
           ?compute_generalized_F_one_feature.
Qed.

Lemma ESH_manifold_one_feature_once alpha a lr G W0opt :
  let A := get_feature_affinity normalize_Z X Z in
  let W0 := initialize_W eigsh W0opt A in
  resolve_alpha X A alpha W0 = Finite a ->
  tape_gradient X W0 A a = Some G ->
  ESH_manifold normalize_Z eigsh tape_gradient X Z alpha lr 1 W0opt
  = Returned W0 [:: cost_fn X W0 A a].
Proof.
move=> A W0 alE tg; rewrite ESH_manifoldE -/A -/W0 alE.
by rewrite [iota 0 1]/= for_range_cons (body_one_feature_first lr tg).
Qed.

End OneFeatureSolve.


End Model.

Arguments NotFinite {T}.
Arguments Raise {T d K}.
Arguments LoopRaised {T d K}.
Arguments Raised {T d K}.

(** ** Further properties of the program

    The functions of the module and the two solvers, for arbitrary
    collaborators [normalize_Z], [eigsh] and [tape_gradient]. *)

Section Properties.
Variable T : rcfType.
Variables (n d m K : nat).
Variable normalize_Z : 'M[T]_(n.+1, m) -> 'M[T]_(n.+1, m).
Variable eigsh : 'M[T]_d -> 'rV[T]_K * 'M[T]_(d, K).
Variable tape_gradient :
  'M[T]_(n.+1, d) -> 'M[T]_(d, K) -> 'M[T]_d -> T -> option 'M[T]_(d, K).

Local Notation get_feature_affinity := (get_feature_affinity normalize_Z).
Local Notation initialize_W := (initialize_W eigsh).
Local Notation body := (body tape_gradient).
Local Notation generalized_body := (generalized_body tape_gradient).
Local Notation ESH_manifold := (ESH_manifold normalize_Z eigsh tape_gradient).
Local Notation ESH_generalized_manifold :=
  (ESH_generalized_manifold normalize_Z eigsh tape_gradient).

Section FunctionFacts.
Variables (X : 'M[T]_(n.+1, d)) (Z : 'M[T]_(n.+1, m)).

Lemma trace_gram_eq0 p q (B : 'M[T]_(p, q)) : (\tr (B^T *m B) == 0) = (B == 0).
Proof.
apply/eqP/eqP => [|->]; last by rewrite mulmx0 mxtrace0.
rewrite /mxtrace => /eqP; rewrite psumr_eq0 => [i _|/allP z].
  by rewrite mxE; apply: sumr_ge0 => j _; rewrite mxE -expr2 sqr_ge0.
apply/matrixP => j i; rewrite [RHS]mxE; apply/eqP.
have := z i (mem_index_enum i); rewrite /= mxE psumr_eq0 => [k _|/allP y].
  by rewrite mxE -expr2 sqr_ge0.
by have := y j (mem_index_enum j); rewrite /= mxE mulf_eq0 orbb.
Qed.

(** X1: the affinity is a Gram matrix, whatever the normalization of Z
    does: it is symmetric and positive semidefinite, the trace term
    trace(W^T A W) of the cost is never negative, and its rank is at most the
    number of anchors. *)
Theorem get_feature_affinity_symmetric_psd :
  [/\ (get_feature_affinity X Z)^T = get_feature_affinity X Z,
      forall v : 'rV[T]_d, 0 <= (v *m get_feature_affinity X Z *m v^T) 0 0,
      forall W : 'M[T]_(d, K), 0 <= \tr (W^T *m get_feature_affinity X Z *m W)
    & (\rank (get_feature_affinity X Z) <= m)%N].
Proof.
split=> [|v|W|].
- by rewrite /get_feature_affinity /= trmx_mul trmxK.
- rewrite /get_feature_affinity /=; set L := X^T *m normalize_Z Z.
  have -> : v *m (L *m L^T) *m v^T = (v *m L) *m (v *m L)^T.
    by rewrite trmx_mul !mulmxA.
  by rewrite mxE; apply: sumr_ge0 => j _; rewrite [_^T j 0]mxE -expr2 sqr_ge0.
- by rewrite -oppr_le0; apply: affinity_main_cost_le0.
- rewrite /get_feature_affinity /=.
  by rewrite (leq_trans (mxrankM_maxl _ _)) // rank_leq_col.
Qed.

(** X2: the matrix M of the generalized solver is symmetric and positive
    definite, with v M v^T >= 0.01 v v^T; in particular it is invertible. *)
Theorem generalized_M_positive_definite :
  [/\ (generalized_M X)^T = generalized_M X,
      forall v : 'rV[T]_d,
        100%:R^-1 * (v *m v^T) 0 0 <= (v *m generalized_M X *m v^T) 0 0
    & generalized_M X \in unitmx].
Proof.
split=> [|v|]; first exact: generalized_M_sym.
- rewrite /generalized_M /= mulmxDr mulmxDl -!scalemxAr -!scalemxAl mulmx1.
  have -> : v *m (X^T *m X) *m v^T = (X *m v^T)^T *m (X *m v^T).
    by rewrite trmx_mul trmxK !mulmxA.
  rewrite [leRHS]mxE [X in _ <= X + _]mxE [X in _ <= _ + X]mxE lerDr.
  apply: mulr_ge0; first by rewrite invr_ge0 ler0n.
  by rewrite mxE; apply: sumr_ge0 => i _; rewrite !mxE -expr2 sqr_ge0.
- rewrite -row_free_unit; apply/inj_row_free => v vM.
  by apply: (@generalized_M_form_eq0 _ _ _ X); rewrite vM mul0mx.
Qed.

Lemma invmx_commute (A B : 'M[T]_d) :
  A \in unitmx -> B \in unitmx -> A *m B = B *m A ->
  invmx B *m invmx A = invmx A *m invmx B.
Proof.
move=> Au Bu comm.
have: invmx B *m invmx A *m (A *m B) = 1%:M.
  by rewrite mulmxA mulmxKV // mulVmx.
rewrite comm => /(congr1 (mulmx^~ (invmx A *m invmx B))).
by rewrite mul1mx -!mulmxA mulKVmx // mulmxV // mulmx1.
Qed.

(** X3: the factor Q of line 105 exists for every step size and
    gradient, is orthogonal with determinant 1, and the factor for the step
    size -lr is its inverse Q^T. *)
Theorem cayley_is_rotation lr (G W : 'M[T]_(d, K)) :
  exists2 Q,
    cayley lr (compute_F G W) = Some Q
    & [/\ Q^T *m Q = 1%:M, Q *m Q^T = 1%:M, \det Q = 1
        & cayley (- lr) (compute_F G W) = Some Q^T].
Proof.
have skF := compute_F_skew G W; set F := compute_F G W in skF *.
have [Q cQ] := cayley_total lr skF; exists Q => //.
have QtQ := cayley_orthogonal skF cQ.
move: cQ; rewrite /cayley /inv mulNr scaleNr opprK.
set A := 1%:M + _; set B := 1%:M - _.
have Au : A \in unitmx by apply: cayley_factor_unit.
have AT : A^T = B by apply: tr_cayley_factor.
have Bu : B \in unitmx by rewrite -AT unitmx_tr.
have comm : A *m B = B *m A by apply: cayley_factors_commute.
rewrite Au Bu => -[QE]; split=> //; first exact: mulmx1C.
- rewrite -QE det_mulmx det_inv -AT det_tr mulVf //.
  by move: Au; rewrite unitmxE unitfE.
- congr Some; rewrite -QE trmx_mul trmx_inv AT -AT trmxK AT.
  have: invmx B *m (A *m B) = invmx B *m (B *m A) by rewrite comm.
  rewrite mulKmx // => /(congr1 (mulmx^~ (invmx B))).
  by rewrite !mulmxA mulmxK.
Qed.

(** X4: for an orthonormal W the projected gradient grad_J(G, W) is
    tangent to the manifold (W^T grad_J(G, W) is skew-symmetric), and it is
    F W for the matrix F of lines 102-103. *)
Theorem grad_J_tangent (G W : 'M[T]_(d, K)) :
  orthonormal W ->
  (W^T *m grad_J G W)^T = - (W^T *m grad_J G W)
  /\ compute_F G W *m W = grad_J G W.
Proof.
rewrite /orthonormal /grad_J /compute_F /= => oW; split.
  rewrite mulmxBr !mulmxA oW mul1mx linearB /= !trmx_mul !trmxK.
  by rewrite opprB.
by rewrite mulmxBl trmx_mul trmxK -!mulmxA oW mulmx1 mulmxA.
Qed.

(** X5: for every G, W and M, generalized_grad_J with M = I and no K_inv
    is grad_J, and K_inv = I changes nothing; when moreover W^T M W = I,
    generalized_grad_J(G, W, M) is tangent in the same sense (W^T times it
    is skew-symmetric). *)
Theorem generalized_grad_J_tangent (G W : 'M[T]_(d, K)) (M : 'M[T]_d) :
  [/\ generalized_grad_J G W 1%:M None = grad_J G W,
      generalized_grad_J G W M (Some 1%:M) = generalized_grad_J G W M None
    & W^T *m M *m W = 1%:M ->
      (W^T *m generalized_grad_J G W M None)^T
      = - (W^T *m generalized_grad_J G W M None)].
Proof.
rewrite /generalized_grad_J /grad_J /=; split=> [||WMW].
- by rewrite mul1mx.
- by rewrite mulmx1.
- rewrite mulmxBr !mulmxA WMW mul1mx linearB /= !trmx_mul !trmxK.
  by rewrite opprB.
Qed.

(** X6: the step size of lines 117-119 does not depend on the order of
    W and W_old, is not a finite number exactly when the two projected
    gradients coincide, and is never negative. *)
Theorem lr_update_properties (G W W_old : 'M[T]_(d, K)) :
  [/\ lr_update G W W_old = lr_update G W_old W,
      lr_update G W W_old = NotFinite <-> grad_J G W = grad_J G W_old
    & forall r, lr_update G W W_old = Finite r -> 0 <= r].
Proof.
rewrite /lr_update /=; set Y := grad_J G W - grad_J G W_old.
split.
- have -> : W_old - W = - (W - W_old) by rewrite opprB.
  have -> : grad_J G W_old - grad_J G W = - Y by rewrite /Y opprB.
  by rewrite !linearN /= !mulNmx !linearN /= !opprK.
- rewrite /truediv trace_gram_eq0 subr_eq0.
  by case: eqP => [->|ne]; split.
- by rewrite /truediv; case: ifP => // _ r [<-].
Qed.

(** X7: the cost does not see the sign of a column of W: flipping any
    set of columns leaves it unchanged. *)
Theorem cost_fn_column_signs (W : 'M[T]_(d, K)) (A : 'M[T]_d) (alpha : T)
    (flip : 'I_K -> bool) :
  cost_fn X (\matrix_(i, j) ((-1) ^+ flip j * W i j)) A alpha
  = cost_fn X W A alpha.
Proof.
pose D : 'rV[T]_K := \row_j (-1) ^+ flip j.
have -> : \matrix_(i, j) ((-1) ^+ flip j * W i j) = W *m diag_mx D.
  by apply/matrixP => i j; rewrite mul_mx_diag !mxE mulrC.
have DD : diag_mx D *m diag_mx D = 1%:M.
  rewrite mulmx_diag -diag_const_mx; congr diag_mx.
  by apply/rowP => j; rewrite !mxE -expr2 sqrr_sign.
rewrite /cost_fn; congr ((-1 * _ + _ * _ ^+ 2) / _).
  rewrite trmx_mul tr_diag_mx -mulmxA mxtrace_mulC -!mulmxA DD mulmx1.
  by rewrite !mulmxA.
congr norm_fro; congr map_mx; apply/matrixP => i j.
by rewrite mulmxA mul_mx_diag !mxE normrM normr_sign mulr1.
Qed.

End FunctionFacts.

(** ** The invariant of the generalized solver *)

Section GeneralizedInvariant.
Variables (X : 'M[T]_(n.+1, d)) (Z : 'M[T]_(n.+1, m)).
Local Notation A := (get_feature_affinity X Z).
Local Notation M := (generalized_M X).

Lemma generalized_cayley_isometry c (S : 'M[T]_d) Q :
  S^T = - S -> cayley c (S *m M) = Some Q -> Q^T *m M *m Q = M.
Proof.
move=> skS; rewrite /cayley /inv; set k := c * half T.
set A1 := 1%:M + _; set B1 := 1%:M - _.
pose A2 : 'M[T]_d := 1%:M + k *: (M *m S).
pose B2 : 'M[T]_d := 1%:M - k *: (M *m S).
have A1u : A1 \in unitmx by apply: generalized_cayley_factor_unit.
have A1T : A1^T = B2 by apply: tr_generalized_cayley_factor.
have B1E : B1 = 1%:M + (- k) *: (S *m M) by rewrite scaleNr.
have B1T : B1^T = A2.
  by rewrite B1E tr_generalized_cayley_factor // scaleNr opprK.
have A2u : A2 \in unitmx by rewrite -B1T unitmx_tr B1E generalized_cayley_factor_unit.
have B2u : B2 \in unitmx by rewrite -A1T unitmx_tr.
have MA : M *m A1 = A2 *m M.
  by rewrite /A1 /A2 mulmxDr mulmx1 mulmxDl mul1mx -scalemxAr -scalemxAl !mulmxA.
have MB : M *m B1 = B2 *m M.
  by rewrite /B1 /B2 mulmxBr mulmx1 mulmxBl mul1mx -scalemxAr -scalemxAl !mulmxA.
have comm : A2 *m B2 = B2 *m A2 by apply: cayley_factors_commute.
have icomm := invmx_commute A2u B2u comm.
have MAi : invmx A2 *m M = M *m invmx A1.
  have := congr1 (fun U => invmx A2 *m U *m invmx A1) MA.
  by rewrite mulmxA (mulmxK A1u) (mulKmx A2u).
rewrite A1u => -[<-]; rewrite trmx_mul trmx_inv A1T B1T -!mulmxA.
rewrite [M *m (_ *m _)]mulmxA -MAi -!mulmxA MB.
rewrite [invmx B2 *m _]mulmxA icomm -!mulmxA.
by rewrite (mulKmx B2u) (mulKVmx A2u).
Qed.

Lemma generalized_body_isometry alpha it (s s' : state T d K) :
  (W_of s)^T *m M *m W_of s = 1%:M ->
  step_state (generalized_body X A M alpha it s) = Some s' ->
  (W_of s')^T *m M *m W_of s' = 1%:M.
Proof.
move=> WMW.
case: (generalized_bodyP tape_gradient X A M alpha it s)
    => [a lr G Q _ _ _ cQ _|a lr G Q _ _ _ cQ _| |] //= [<-] /=;
  rewrite trmx_mul -!mulmxA [M *m _]mulmxA [Q^T *m _]mulmxA [Q^T *m _]mulmxA;
  by rewrite (generalized_cayley_isometry (skew_sub_tr _) cQ) mulmxA.
Qed.

Lemma generalized_W_isometry (eig_val : 'rV[T]_K) (eig_vec W : 'M[T]_(d, K)) :
  M *m eig_vec = eig_vec *m diag_mx eig_val ->
  eig_vec^T *m eig_vec = 1%:M ->
  generalized_W eig_val eig_vec = Some W ->
  W^T *m M *m W = 1%:M.
Proof.
move=> MV oV; have pos := exact_eigenvalues_gt0 MV oV.
rewrite /generalized_W; case: forallP => // _ [<-].
pose D : 'rV[T]_K := \row_j (Num.sqrt (eig_val 0 j))^-1.
have -> : \matrix_(i, j) (eig_vec i j / Num.sqrt (eig_val 0 j))
          = eig_vec *m diag_mx D.
  by apply/matrixP => i j; rewrite mul_mx_diag !mxE.
rewrite trmx_mul tr_diag_mx -!mulmxA [M *m _]mulmxA MV.
rewrite -mulmxA [eig_vec^T *m _]mulmxA oV mul1mx !mulmx_diag.
rewrite -[RHS]diag_const_mx; congr diag_mx; apply/rowP => j; rewrite !mxE.
by rewrite mulrCA -invfM -expr2 sqr_sqrtr ?ltW // mulfV // gt_eqF.
Qed.

(** X8: with exact eigenpairs from eigsh, a W returned by the generalized
    solver satisfies W^T M W = I: the initial point does, and every update
    preserves W^T M W. *)
Theorem ESH_generalized_manifold_isometry alpha lr maxiter W tr :
  M *m (eigsh M).2 = (eigsh M).2 *m diag_mx (eigsh M).1 ->
  (eigsh M).2^T *m (eigsh M).2 = 1%:M ->
  ESH_generalized_manifold X Z alpha lr maxiter = Returned W tr ->
  W^T *m M *m W = 1%:M.
Proof.
move=> MV oV ret.
have [W0 [W0E /(_ _ _ erefl erefl)]] := ESH_generalized_manifold_run ret.
move=> [a [it [s [s' [[_ _ sit st ->] _]]]]].
apply: generalized_body_isometry st.
apply: (state_at_invariant
          (P := fun s1 => (W_of s1)^T *m M *m W_of s1 = 1%:M) _ _ sit).
  by move=> k s1 s2; apply: generalized_body_isometry.
exact: generalized_W_isometry MV oV W0E.
Qed.

(** X9: in an update of the generalized solver the new W is Q W for a
    factor Q with Q^T M Q = M, so that W^T M W is the same before and after,
    whatever it was. *)
Theorem generalized_update_preserves_metric alpha it (s s' : state T d K) :
  step_state (generalized_body X A M alpha it s) = Some s' ->
  exists2 Q, W_of s' = Q *m W_of s
    & Q^T *m M *m Q = M
      /\ (W_of s')^T *m M *m W_of s' = (W_of s)^T *m M *m W_of s.
Proof.
case: (generalized_bodyP tape_gradient X A M alpha it s)
    => [a lr G Q _ _ _ cQ _|a lr G Q _ _ _ cQ _| |] //= [<-] /=;
  exists Q => //;
  have QMQ := generalized_cayley_isometry (skew_sub_tr _) cQ; split=> //;
  by rewrite trmx_mul -!mulmxA [M *m _]mulmxA [Q^T *m _]mulmxA [Q^T *m _]mulmxA
             QMQ mulmxA.
Qed.

End GeneralizedInvariant.

(** ** The cost and the regularization weight *)

Section CostProperties.
Variables (X : 'M[T]_(n.+1, d)) (Z : 'M[T]_(n.+1, m)).
Local Notation A := (get_feature_affinity X Z).

Lemma sum_sq_eq0 p q (B : 'M[T]_(p, q)) :
  (\sum_i \sum_j B i j ^+ 2 == 0) = (B == 0).
Proof.
apply/eqP/eqP => [/eqP|->]; last first.
  by rewrite big1 // => i _; rewrite big1 // => j _; rewrite mxE expr0n.
rewrite psumr_eq0 => [i _|/allP z]; first by apply: sumr_ge0 => j _; apply: sqr_ge0.
apply/matrixP => i j; rewrite [RHS]mxE; apply/eqP.
have := z i (mem_index_enum i); rewrite /= psumr_eq0 => [k _|/allP y].
  exact: sqr_ge0.
by have := y j (mem_index_enum j); rewrite /= sqrf_eq0.
Qed.

Lemma penalty_eq0 (W : 'M[T]_(d, K)) :
  (norm_fro (map_mx (fun p => p - 1) (map_mx Num.norm (X *m W))) ^+ 2 == 0)
  = [forall i, forall j, `|(X *m W) i j| == 1].
Proof.
rewrite norm_fro_sq sum_sq_eq0; apply/eqP/forallP => [B0 i|B1].
  apply/forallP => j; move/matrixP/(_ i j): B0; rewrite 2![in LHS]mxE [RHS]mxE.
  by move/eqP; rewrite subr_eq0.
apply/matrixP => i j; rewrite 2![in LHS]mxE [RHS]mxE.
by apply/eqP; rewrite subr_eq0; have /forallP := B1 i.
Qed.

Lemma penalty_ge0 (W : 'M[T]_(d, K)) :
  0 <= norm_fro (map_mx (fun p => p - 1) (map_mx Num.norm (X *m W))) ^+ 2.
Proof. exact: sqr_ge0. Qed.

(** X10: with a positive weight the cost is at least
    -trace(W^T A W) / n, and equal to it exactly when every projected value
    is +1 or -1: the penalty vanishes on binary codes and nowhere else. *)
Theorem cost_fn_penalty (W : 'M[T]_(d, K)) (B : 'M[T]_d) (alpha : T) :
  0 < alpha ->
  - \tr (W^T *m B *m W) / n.+1%:R <= cost_fn X W B alpha
  /\ (cost_fn X W B alpha = - \tr (W^T *m B *m W) / n.+1%:R
      <-> forall i j, `|(X *m W) i j| = 1).
Proof.
move=> a0; rewrite /cost_fn /= mulN1r mulmxA.
set reg := norm_fro _ ^+ 2.
have reg0 : 0 <= reg by apply: penalty_ge0.
have n0 : 0 < (n.+1%:R : T)^-1 by rewrite invr_gt0 ltr0n.
have h0 : 0 < half T * alpha by rewrite mulr_gt0 // invr_gt0 ltr0n.
split; first by rewrite ler_pM2r // lerDl mulr_ge0 // ltW.
split=> [/(mulIf (lt0r_neq0 n0)) /eqP|bin].
  rewrite -subr_eq0 addrC addKr mulf_eq0 (gt_eqF h0) /= penalty_eq0.
  by move=> /forallP bin i j; have /forallP/(_ j)/eqP := bin i.
have /eqP -> : reg == 0.
  by rewrite penalty_eq0; apply/forallP => i; apply/forallP => j; rewrite bin.
by rewrite mulr0 addr0.
Qed.

Lemma projector_trace_le p (W : 'M[T]_(d, K)) (L : 'M[T]_(d, p)) :
  orthonormal W -> \tr (W^T *m (L *m L^T) *m W) <= \tr (L *m L^T).
Proof.
rewrite /orthonormal => oW.
pose N : 'M[T]_d := 1%:M - W *m W^T.
have NT : N^T = N by rewrite linearB /= trmx1 trmx_mul trmxK.
have NN : N *m N = N.
  rewrite /N mulmxBr mulmx1 mulmxBl mul1mx -mulmxA [W^T *m _]mulmxA oW.
  by rewrite mul1mx subrr subr0.
have := trace_gram_ge0 (N *m L).
rewrite trmx_mul NT -mulmxA [N *m (N *m L)]mulmxA NN.
rewrite mulmxBl mul1mx mulmxBr linearB /= Num.Theory.subr_ge0.
rewrite [\tr (L^T *m L)]mxtrace_mulC.
have -> : \tr (W^T *m (L *m L^T) *m W) = \tr (L^T *m (W *m W^T *m L)).
  by rewrite -!mulmxA mulmxA mxtrace_mulC !mulmxA.
by [].
Qed.

Lemma cost_fn_manifold_bound (W : 'M[T]_(d, K)) (alpha : T) :
  orthonormal W -> 0 <= alpha ->
  - \tr A / n.+1%:R <= cost_fn X W A alpha.
Proof.
move=> oW a0; rewrite /cost_fn /= mulN1r mulmxA.
have n0 : 0 < (n.+1%:R : T)^-1 by rewrite invr_gt0 ltr0n.
rewrite ler_pM2r //; apply: le_trans (_ : - \tr (W^T *m A *m W) <= _).
  by rewrite lerN2 /get_feature_affinity /=; apply: projector_trace_le.
rewrite lerDl; apply: mulr_ge0; last exact: penalty_ge0.
by apply: mulr_ge0 => //; rewrite invr_ge0 ler0n.
Qed.

Lemma resolve_alpha_ge0 (alpha : option T) (W : 'M[T]_(d, K)) (B : 'M[T]_d) a :
  (forall a0, alpha = Some a0 -> 0 <= a0) ->
  resolve_alpha X B alpha W = Finite a -> 0 <= a.
Proof.
case: alpha => [a0 /(_ a0 erefl) a0_ge0 [<-] //|_] /=.
by rewrite /compute_alpha /truediv; case: ifP => // _ [<-].
Qed.

(** X11: a solve of the plain solver that starts from an orthonormal W
    with a non-negative (or automatically selected) weight returns an
    orthonormal W and a trace whose entries are all at least
    -trace(Affinity) / n. *)
Theorem ESH_manifold_trace_bounded_below alpha lr maxiter W0opt W tr :
  orthonormal (initialize_W W0opt A) ->
  (forall a0, alpha = Some a0 -> 0 <= a0) ->
  ESH_manifold X Z alpha lr maxiter W0opt = Returned W tr ->
  orthonormal W
  /\ forall i, (i < size tr)%N -> - \tr A / n.+1%:R <= nth 0 tr i.
Proof.
move=> oW0 a_ge0 ret.
have [a [it [s [s' [[alE itN sit st ->] [sz costs _ _]]]]]] :=
  ESH_manifold_run ret (erefl _) (erefl _) (erefl _).
have inv k sk :
    state_at (body X A (resolve_alpha X A alpha (initialize_W W0opt A)))
      (start (initialize_W W0opt A) lr maxiter) k = Some sk ->
    orthonormal (W_of sk).
  move=> skE.
  apply: (state_at_invariant (P := fun s1 => orthonormal (W_of s1)) _ _ skE) => //.
  by move=> k' s1 s2; apply: body_orthonormal.
split; first exact: body_orthonormal (inv _ _ sit) st.
move=> i; rewrite sz ltnS => /costs [si /inv osi ->].
by apply: cost_fn_manifold_bound => //; apply: resolve_alpha_ge0 alE.
Qed.

(** X12: compute_alpha is not a finite number exactly when every
    projected value is +1 or -1 (the penalty it divides by is zero);
    otherwise it is the non-negative weight that makes the weighted penalty
    equal to the absolute value of the trace term. *)
Theorem compute_alpha_edge (W : 'M[T]_(d, K)) (B : 'M[T]_d) :
  (compute_alpha X W B = NotFinite <-> forall i j, `|(X *m W) i j| = 1)
  /\ forall a, compute_alpha X W B = Finite a ->
       0 <= a
       /\ half T * a * \sum_i \sum_j (`|(X *m W) i j| - 1) ^+ 2
          = `|\tr (W^T *m B *m W)|.
Proof.
rewrite /compute_alpha /= /truediv penalty_eq0.
have regE : norm_fro (map_mx (fun p => p - 1) (map_mx Num.norm (X *m W))) ^+ 2
            = \sum_i \sum_j (`|(X *m W) i j| - 1) ^+ 2.
  rewrite norm_fro_sq; apply: eq_bigr => i _; apply: eq_bigr => j _.
  by rewrite !mxE.
split.
  case: ifP => [/forallP bin|/negbT nbin]; split=> //.
  - by move=> _ i j; have /forallP/(_ j)/eqP := bin i.
  - move=> bin; case/negP: nbin.
    by apply/forallP => i; apply/forallP => j; rewrite bin.
move=> a; case: ifP => // /negbT; rewrite -penalty_eq0 => reg0 [<-].
split=> //; rewrite -regE; set reg := norm_fro _ ^+ 2 in reg0 *.
have reg_gt0 : 0 < reg by rewrite lt_neqAle eq_sym reg0 penalty_ge0.
rewrite normrM normfV (gtr0_norm reg_gt0) normrM normr_nat mulN1r normrN.
by rewrite mulmxA /half -!mulrA mulVf ?gt_eqF // mulr1 mulKf // pnatr_eq0.
Qed.

End CostProperties.

(** ** Whole solves: errors, trace lengths and stationary points *)

Section SolveProperties.
Variables (X : 'M[T]_(n.+1, d)) (Z : 'M[T]_(n.+1, m)).
Local Notation A := (get_feature_affinity X Z).
Local Notation M := (generalized_M X).

(** X13: a solve raises UnboundLocalError exactly when maxiter = 0: the
    return statement reads the loop variable of a loop that never ran.  This
    holds for every other argument, in both solvers. *)
Theorem unbound_loop_variable_iff_no_iteration alpha lr maxiter :
  (forall W0opt,
     ESH_manifold X Z alpha lr maxiter W0opt = Raised UnboundLocalError
     <-> maxiter = 0%N)
  /\ (ESH_generalized_manifold X Z alpha lr maxiter = Raised UnboundLocalError
      <-> maxiter = 0%N).
Proof.
split=> [W0opt|]; split.
- rewrite ESH_manifoldE => /loop_raises[[]|[it [s [_ _]]]] //.
  by case/body_raises.
- by move=> ->.
- rewrite /ESH_generalized_manifold; case: (eigsh M) => ev eV.
  case: (generalized_W ev eV) => [W0|]; last by case: maxiter.
  case/loop_raises => [[]|[it [s [_ _]]]] //.
  by case/(@generalized_body_raises _ _ _ _ _ normalize_Z _ X Z).
- move=> ->; rewrite /ESH_generalized_manifold; case: (eigsh M) => ev eV.
  by case: (generalized_W ev eV).
Qed.

Lemma alpha_not_finite_solve (loop_body := body X A NotFinite) maxiter
    (s0 : state T d K) :
  return_ (for_range loop_body (iota 0 maxiter) None s0)
  = if maxiter is 0 then Raised UnboundLocalError
    else Raised InvalidArgumentError.
Proof. by case: maxiter. Qed.

(** X14: when alpha = None and every projected value at the initial W is
    +1 or -1 (with at least one bit), the selected weight is not a finite
    number: cost and gradient of the first iteration are NaN and its matrix
    inversion raises InvalidArgumentError, in both solvers; with maxiter = 0
    the solve raises UnboundLocalError as always. *)
Theorem auto_alpha_on_binary_codes lr maxiter :
  (forall W0opt,
     (0 < K)%N ->
     (forall i j, `|(X *m initialize_W W0opt A) i j| = 1) ->
     ESH_manifold X Z None lr maxiter W0opt
     = if maxiter is 0 then Raised UnboundLocalError
       else Raised InvalidArgumentError)
  /\ (forall W0,
        (0 < K)%N ->
        generalized_W (eigsh M).1 (eigsh M).2 = Some W0 ->
        (forall i j, `|(X *m W0) i j| = 1) ->
        ESH_generalized_manifold X Z None lr maxiter
        = if maxiter is 0 then Raised UnboundLocalError
          else Raised InvalidArgumentError).
Proof.
have caE (W : 'M[T]_(d, K)) :
    (forall i j, `|(X *m W) i j| = 1) -> compute_alpha X W A = NotFinite.
  move=> bin; rewrite /compute_alpha /= /truediv.
  suff /eqP -> : norm_fro (map_mx (fun p => p - 1)
                             (map_mx Num.norm (X *m W))) ^+ 2 == 0.
    by rewrite eqxx.
  by rewrite penalty_eq0; apply/forallP => i; apply/forallP => j; rewrite bin.
split=> [W0opt _ bin|W0 _ W0E bin].
  by rewrite ESH_manifoldE /= caE //; case: maxiter.
rewrite (ESH_generalized_manifoldE normalize_Z tape_gradient Z None lr maxiter W0E).
by rewrite /= caE //; case: maxiter.
Qed.

Lemma early_stop_length maxiter (tr : seq T) it :
  (it < maxiter)%N -> size tr = it.+1 ->
  ((it.+1 < maxiter)%N -> converged tr it) ->
  size tr = maxiter
  \/ [/\ (size tr < maxiter)%N, nth 0 tr (size tr - 11)%N != 0
       & exists2 k, (0 < k)%N & size tr = (10 * k).+1].
Proof.
move=> itN sz; rewrite sz.
case: (ltnP it.+1 maxiter) => [lt /(_ isT)|ge _]; last first.
  by left; apply/eqP; rewrite eqn_leq itN.
rewrite convergedE => /and4P[/eqP it10 it0 nz _]; right; split=> //.
exists (it %/ 10)%N; last by rewrite mulnC {1}(divn_eq it 10) it10 addn0.
by rewrite divn_gt0 // -multiple_of_10_gt0 // it10.
Qed.

(** X15: a returned trace has maxiter entries, or 10 k + 1 entries for
    some k >= 1, in which case the entry ten places before the last is not
    zero; in both solvers. *)
Theorem returned_trace_length alpha lr maxiter :
  (forall W0opt W tr,
     ESH_manifold X Z alpha lr maxiter W0opt = Returned W tr ->
     size tr = maxiter
     \/ [/\ (size tr < maxiter)%N, nth 0 tr (size tr - 11)%N != 0
          & exists2 k, (0 < k)%N & size tr = (10 * k).+1])
  /\ (forall W tr,
        ESH_generalized_manifold X Z alpha lr maxiter = Returned W tr ->
        size tr = maxiter
        \/ [/\ (size tr < maxiter)%N, nth 0 tr (size tr - 11)%N != 0
             & exists2 k, (0 < k)%N & size tr = (10 * k).+1]).
Proof.
split=> [W0opt W tr /ESH_manifold_run/(_ _ _ _ erefl erefl erefl)|W tr].
  case=> a [it [s [s' [[_ itN _ _ _] [sz _ _ c]]]]].
  exact: early_stop_length itN sz c.
case/ESH_generalized_manifold_run => W0 [_ /(_ _ _ erefl erefl)].
case=> a [it [s [s' [[_ itN _ _ _] [sz _ _ c]]]]].
exact: early_stop_length itN sz c.
Qed.

Lemma cayley_identity lr (F : 'M[T]_d) :
  lr = 0 \/ F = 0 -> cayley lr F = Some 1%:M.
Proof.
rewrite /cayley /inv => -[->|->].
  by rewrite mul0r scale0r addr0 subr0 unitmx1 invmx1 mulmx1.
by rewrite scaler0 addr0 subr0 unitmx1 invmx1 mulmx1.
Qed.

(** X16: when the step is zero (lr = 0) or the initial W is a stationary
    point (F = 0; always so with a single feature), the first iteration
    leaves W in place and divides by zero in the step-size update: a solve
    with maxiter = 1 returns the initial W, and with maxiter >= 2 (and at
    least one feature) the second iteration, whose step size is not a number,
    raises InvalidArgumentError at the matrix inversion. *)
Theorem stationary_start alpha lr maxiter W0opt a G :
  resolve_alpha X A alpha (initialize_W W0opt A) = Finite a ->
  tape_gradient X (initialize_W W0opt A) A a = Some G ->
  lr = 0 \/ compute_F G (initialize_W W0opt A) = 0 ->
  [/\ forall N,
        body X A (Finite a) 0 (start (initialize_W W0opt A) lr N)
        = Next (State (initialize_W W0opt A) NotFinite
                  (set_nth 0 (nseq N 0) 0
                     (cost_fn X (initialize_W W0opt A) A a))),
      ESH_manifold X Z alpha lr 1 W0opt
      = Returned (initialize_W W0opt A)
          [:: cost_fn X (initialize_W W0opt A) A a]
    & (0 < d)%N ->
      ESH_manifold X Z alpha lr maxiter.+2 W0opt
      = Raised InvalidArgumentError].
Proof.
set W0 := initialize_W W0opt A => alE tg st.
have first N : body X A (Finite a) 0 (start W0 lr N)
               = Next (State W0 NotFinite
                         (set_nth 0 (nseq N 0) 0 (cost_fn X W0 A a))).
  by rewrite /body /= tg (cayley_identity st) mul1mx lr_update_same.
split=> // [|_]; rewrite ESH_manifoldE -/W0 alE.
  by rewrite [iota 0 1]/= for_range_cons first.
by rewrite [iota 0 _]/= !for_range_cons first.
Qed.

Lemma generalized_loop_returns a lr its (last : option nat)
    (s : state T d K) :
  (forall W, exists G, tape_gradient X W A a = Some G) ->
  lr_of s = Finite lr -> (its != [::]) || isSome last ->
  exists W tr,
    return_ (for_range (generalized_body X A M (Finite a)) its last s)
    = Returned W tr.
Proof.
move=> total; elim: its last s => [|it its IH] last s lrs.
  by case: last => [it|] //= _; eexists; eexists.
move=> _; rewrite for_range_cons.
case: (generalized_bodyP tape_gradient X A M (Finite a) it s)
    => [a' lr' G Q _ lrs' _ _ _|a' lr' G Q _ _ _ _ _|a' lr' G _ _ _|].
- by apply: IH; rewrite ?orbT //= -lrs'.
- by eexists; eexists.
- rewrite /cayley /inv /compute_generalized_F /=.
  by rewrite generalized_cayley_factor_unit //; apply: skew_sub_tr.
- case=> // [|[a' [<-]]]; first by rewrite lrs.
  by have [G ->] := total (W_of s).
Qed.

(** X17: the generalized solver cannot fail once it has started: with a
    weight that is a number, a start W that exists (positive eigenvalues)
    and gradients that are numbers, a solve with maxiter >= 1 returns; no
    iteration raises, in exact arithmetic, because lr is never updated. *)
Theorem ESH_generalized_manifold_returns alpha a lr maxiter W0 :
  (forall W, exists G, tape_gradient X W A a = Some G) ->
  generalized_W (eigsh M).1 (eigsh M).2 = Some W0 ->
  resolve_alpha X A alpha W0 = Finite a ->
  (0 < maxiter)%N ->
  exists W tr,
    ESH_generalized_manifold X Z alpha lr maxiter = Returned W tr.
Proof.
move=> total W0E alE N0.
rewrite (ESH_generalized_manifoldE normalize_Z tape_gradient Z alpha lr maxiter W0E).
rewrite alE; apply: generalized_loop_returns => //.
by case: maxiter N0.
Qed.

(** X18: the convergence test looks at a relative change: it is
    unchanged when every recorded cost is multiplied by the same non-zero
    factor. *)
Theorem converged_scale_invariant (c : T) (cv : seq T) it :
  c != 0 -> converged [seq c * x | x <- cv] it = converged cv it.
Proof.
move=> c0.
have nthE i : nth 0 [seq c * x | x <- cv] i = c * nth 0 cv i.
  case: (ltnP i (size cv)) => [lt|ge]; first exact: nth_map.
  by rewrite !nth_default ?size_map // mulr0.
rewrite !convergedE !nthE mulf_eq0 (negbTE c0) /= -mulrBr.
by rewrite invfM mulrACA mulfV // mul1r.
Qed.

End SolveProperties.

End Properties.


(** ** The generalized solver with one feature *)

Section OneFeatureGeneralizedSolve.
Variable T : rcfType.
Variables (n m K : nat).
Variable normalize_Z : 'M[T]_(n.+1, m) -> 'M[T]_(n.+1, m).
Variable eigsh : 'M[T]_1 -> 'rV[T]_K * 'M[T]_(1, K).
Variable tape_gradient :
  'M[T]_(n.+1, 1) -> 'M[T]_(1, K) -> 'M[T]_1 -> T -> option 'M[T]_(1, K).
Variables (X : 'M[T]_(n.+1, 1)) (Z : 'M[T]_(n.+1, m)).

Lemma converged_before_10 (cv : seq T) it :
  (it < 10)%N -> converged cv it = false.
Proof.
move=> it10; rewrite convergedE; case it0: (it %% 10 == 0)%N => //=.
by rewrite multiple_of_10_gt0 // leqNgt it10.
Qed.

Lemma generalized_body_one_feature A M a lr G it (s : state T 1 K) :
  lr_of s = Finite lr -> tape_gradient X (W_of s) A a = Some G ->
  generalized_body tape_gradient X A M (Finite a) it s
  = if converged (set_nth 0 (cost_values_of s) it (cost_fn X (W_of s) A a)) it
    then Break (State (W_of s) (Finite lr)
                  (set_nth 0 (cost_values_of s) it (cost_fn X (W_of s) A a)))
    else Next (State (W_of s) (Finite lr)
                 (set_nth 0 (cost_values_of s) it (cost_fn X (W_of s) A a))).
Proof.
move=> lrs tg.
by rewrite /generalized_body lrs tg compute_generalized_F_one_feature cayley_0
           mul1mx.
Qed.

Lemma ESH_generalized_manifold_one_feature_once alpha a lr G W0 :
  generalized_W (eigsh (generalized_M X)).1 (eigsh (generalized_M X)).2
  = Some W0 ->
  resolve_alpha X (get_feature_affinity normalize_Z X Z) alpha W0 = Finite a ->
  tape_gradient X W0 (get_feature_affinity normalize_Z X Z) a = Some G ->
  ESH_generalized_manifold normalize_Z eigsh tape_gradient X Z alpha lr 1
  = Returned W0 [:: cost_fn X W0 (get_feature_affinity normalize_Z X Z) a].
Proof.
move=> W0E alE tg.
rewrite (ESH_generalized_manifoldE normalize_Z tape_gradient Z alpha lr 1 W0E).
rewrite alE [iota 0 1]/= for_range_cons.
by rewrite (generalized_body_one_feature_first _ lr tg).
Qed.

End OneFeatureGeneralizedSolve.

(** ** A run with one feature

    One sample, one feature, one anchor, one bit: X = [2], Z = [1] (which
    every normalization leaves as it is), W = [1], lr = 0.01, one iteration. *)

Section OneFeatureExample.

Definition ex_normalize_Z (Z : 'M[R]_(1, 1)) : 'M[R]_(1, 1) := Z.

Definition ex_eigsh (B : 'M[R]_1) : 'rV[R]_1 * 'M[R]_(1, 1) := (B, 1%:M).

Definition ex_X : 'M[R]_(1, 1) := (2%:R)%:M.
Definition ex_Z : 'M[R]_(1, 1) := 1%:M.
Definition ex_W : 'M[R]_(1, 1) := 1%:M.
Definition ex_lr : R := 100%:R^-1.
Definition ex_alpha : R := 1%:R.
Definition ex_A : 'M[R]_1 := get_feature_affinity ex_normalize_Z ex_X ex_Z.

Lemma sum_mx11 (f : 'I_1 -> 'I_1 -> R) : \sum_i \sum_j f i j = f 0 0.
Proof. by rewrite big_ord1 big_ord1. Qed.

Lemma ex_projected : ex_X *m ex_W = (2%:R)%:M.
Proof. by rewrite /ex_W mulmx1. Qed.

Lemma ex_reg :
  frobenius_norm (map_mx Num.norm (ex_X *m ex_W) - const_mx 1) ^+ 2 = 1.
Proof.
rewrite -norm_fro_frobenius norm_fro_sq sum_mx11 ex_projected !mxE eqxx /=.
by rewrite mulr1n normr_nat; ring.
Qed.

Lemma ex_norm_fro :
  norm_fro (map_mx (fun p : R => `|p| - 1) (ex_X *m ex_W)) = 1.
Proof.
rewrite /norm_fro sum_mx11 ex_projected !mxE eqxx /=.
rewrite mulr1n normr_nat.
have -> : (2%:R - 1) ^+ 2 = 1 :> R by ring.
exact: sqrtr1.
Qed.

Definition ex_G (a : R) : 'M[R]_(1, 1) :=
  1%:R^-1 *: (- (ex_A *m ex_W + ex_A^T *m ex_W)
              + a *: (ex_X^T *m map_mx (fun p : R => (`|p| - 1) * Num.sg p)
                                  (ex_X *m ex_W))).

Definition ex_tape : 'M[R]_(1, 1) -> 'M[R]_(1, 1) -> 'M[R]_1 -> R ->
    option 'M[R]_(1, 1) :=
  @cost_fn_gradient R 0 1 1.

Lemma ex_gradient a : ex_tape ex_X ex_W ex_A a = Some (ex_G a).
Proof. by []. Qed.

Lemma ex_affinity : ex_A = (4%:R)%:M.
Proof.
rewrite /ex_A /get_feature_affinity /ex_normalize_Z /ex_Z /ex_X /= mulmx1.
by rewrite trmxK tr_scalar_mx -scalar_mxM -natrM.
Qed.

Lemma ex_cost a : cost_fn ex_X ex_W ex_A a = - 4%:R + a / 2%:R.
Proof.
rewrite cost_fnE /cost_spec ex_reg ex_affinity.
rewrite /ex_W trmx1 mul1mx mulmx1 mxtrace_scalar mulr1n mulr1 divr1.
by rewrite [_^-1 * _]mulrC.
Qed.

Lemma ex_cost_value :
  cost_fn ex_X ex_W ex_A ex_alpha = - (7%:R / 2%:R).
Proof. by rewrite ex_cost /ex_alpha; field. Qed.

Lemma ex_run a :
  ESH_manifold ex_normalize_Z ex_eigsh ex_tape ex_X ex_Z (Some a) ex_lr 1
    (Some ex_W)
  = Returned ex_W [:: cost_fn ex_X ex_W ex_A a].
Proof.
exact: (@ESH_manifold_one_feature_once _ _ _ _ ex_normalize_Z ex_eigsh ex_tape
          ex_X ex_Z (Some a) a ex_lr (ex_G a) (Some ex_W) (erefl _)
          (ex_gradient a)).
Qed.

Lemma ex_first_step a :
  body ex_tape ex_X ex_A (Finite a) 0 (start ex_W ex_lr 1)
  = Next (State ex_W NotFinite [:: cost_fn ex_X ex_W ex_A a]).
Proof. exact: body_one_feature_first (ex_gradient a). Qed.

Lemma ex_orthonormal : orthonormal ex_W.
Proof. by rewrite /orthonormal /ex_W trmx1 mulmx1. Qed.

(** C3, counterexample: one feature X = [2], Z = [1], W = [1], alpha = 1,
    lr = 0.01, maxiter = 1.  F is a 1 x 1 skew matrix, hence 0, and W does not
    move: Y_it = 0 and the step-size update divides by trace(Y_it^T Y_it) = 0.
    Nothing is raised: the iteration ends with a non-finite lr and the solve
    returns W = [1] with the one-entry trace [-7/2]. *)
Lemma zero_denominator_is_not_an_error :
  [/\ \tr ((grad_J (ex_G ex_alpha) ex_W - grad_J (ex_G ex_alpha) ex_W)^T
           *m (grad_J (ex_G ex_alpha) ex_W - grad_J (ex_G ex_alpha) ex_W)) = 0,
      body ex_tape ex_X ex_A (Finite ex_alpha) 0 (start ex_W ex_lr 1)
      = Next (State ex_W NotFinite [:: - (7%:R / 2%:R)])
    & ESH_manifold ex_normalize_Z ex_eigsh ex_tape ex_X ex_Z (Some ex_alpha) ex_lr 1
        (Some ex_W)
      = Returned ex_W [:: - (7%:R / 2%:R)]].
Proof.
split; first by rewrite subrr trmx0 mulmx0 mxtrace0.
- by rewrite ex_first_step ex_cost_value.
- by rewrite ex_run ex_cost_value.
Qed.

End OneFeatureExample.

(** ** An iteration with two features

    One sample, two features: X = [2 3], Z = [1], W = [1; 0], alpha = 1,
    lr = 2/9.  Matrices are given by their rows and compared entry by entry. *)

Section TwoFeatureExample.

Definition mx_of (p q : nat) (rows : seq (seq R)) : 'M[R]_(p, q) :=
  \matrix_(i, j) nth 0 (nth [::] rows i) j.

Lemma forall_I1 (P : 'I_1 -> Prop) : P ord0 -> forall i, P i.
Proof. by move=> P0 i; rewrite ord1. Qed.

Lemma forall_I2 (P : 'I_2 -> Prop) :
  P ord0 -> P (lift ord0 ord0) -> forall i, P i.
Proof.
move=> P0 P1 [[|[|k]] ltk] //.
- by have -> : Ordinal ltk = ord0 by apply: val_inj.
- by have -> : Ordinal ltk = lift ord0 ord0 by apply: val_inj.
Qed.

Lemma mx21P (B C : 'M[R]_(2, 1)) :
  B ord0 ord0 = C ord0 ord0 ->
  B (lift ord0 ord0) ord0 = C (lift ord0 ord0) ord0 -> B = C.
Proof.
by move=> e0 e1; apply/matrixP; apply: forall_I2; apply: forall_I1.
Qed.

Lemma mx22P (B C : 'M[R]_(2, 2)) :
  [/\ B ord0 ord0 = C ord0 ord0,
      B ord0 (lift ord0 ord0) = C ord0 (lift ord0 ord0),
      B (lift ord0 ord0) ord0 = C (lift ord0 ord0) ord0
    & B (lift ord0 ord0) (lift ord0 ord0)
      = C (lift ord0 ord0) (lift ord0 ord0)] -> B = C.
Proof.
by case=> e00 e01 e10 e11; apply/matrixP; apply: forall_I2; apply: forall_I2.
Qed.

Lemma mx11P (B C : 'M[R]_(1, 1)) : B ord0 ord0 = C ord0 ord0 -> B = C.
Proof. by move=> e; apply/matrixP; apply: forall_I1; apply: forall_I1. Qed.

Lemma sum_I2 (f : 'I_2 -> R) : \sum_i f i = f ord0 + f (lift ord0 ord0).
Proof. by rewrite !big_ord_recl big_ord0 addr0. Qed.

Lemma sum_I1 (f : 'I_1 -> R) : \sum_i f i = f ord0.
Proof. by rewrite big_ord1. Qed.

Definition calc := (mxE, sum_I2, sum_I1).

Lemma invmx_eq (p : nat) (B C : 'M[R]_p) :
  B *m C = 1%:M -> inv B = Some C.
Proof.
move=> BC; have [Bu _] := mulmx1_unit BC.
by rewrite /inv Bu -[invmx B]mulmx1 -BC mulKmx.
Qed.

Definition ex2_X : 'M[R]_(1, 2) := mx_of 1 2 [:: [:: 2%:R; 3%:R]].
Definition ex2_Z : 'M[R]_(1, 1) := 1%:M.
Definition ex2_W : 'M[R]_(2, 1) := mx_of 2 1 [:: [:: 1]; [:: 0]].
Definition ex2_lr : R := 2%:R / 9%:R.
Definition ex2_A : 'M[R]_2 := get_feature_affinity ex_normalize_Z ex2_X ex2_Z.
Definition ex2_tape : 'M[R]_(1, 2) -> 'M[R]_(2, 1) -> 'M[R]_2 -> R ->
    option 'M[R]_(2, 1) :=
  @cost_fn_gradient R 0 2 1.

Definition ex2_G : 'M[R]_(2, 1) := mx_of 2 1 [:: [:: - 6%:R]; [:: - 9%:R]].
Definition ex2_W' : 'M[R]_(2, 1) := mx_of 2 1 [:: [:: 0]; [:: 1]].
Definition ex2_G' : 'M[R]_(2, 1) := mx_of 2 1 [:: [:: - 8%:R]; [:: - 12%:R]].

Lemma ex2_affinity :
  ex2_A = mx_of 2 2 [:: [:: 4%:R; 6%:R]; [:: 6%:R; 9%:R]].
Proof.
rewrite /ex2_A /get_feature_affinity /ex_normalize_Z /ex2_Z /= mulmx1.
by apply: mx22P; split; rewrite !calc /=; ring.
Qed.

Lemma ex2_projected : ex2_X *m ex2_W = (2%:R)%:M.
Proof. by apply: mx11P; rewrite !calc /=; ring. Qed.

Lemma ex2_projected' : ex2_X *m ex2_W' = (3%:R)%:M.
Proof. by apply: mx11P; rewrite !calc /=; ring. Qed.

Lemma norm_fro_scalar (c : R) (f : R -> R) :
  norm_fro (map_mx f (c%:M : 'M[R]_1)) = `|f c|.
Proof. by rewrite /norm_fro sum_mx11 !mxE /= mulr1n sqrtr_sqr. Qed.

Lemma ex2_gradient : ex2_tape ex2_X ex2_W ex2_A ex_alpha = Some ex2_G.
Proof.
rewrite /ex2_tape /cost_fn_gradient ex2_projected.
congr Some; rewrite ex2_affinity.
by apply: mx21P; rewrite !calc /= ?mulr1n normr_nat gtr0_sg ?ltr0n //; field.
Qed.

Lemma ex2_gradient' : ex2_tape ex2_X ex2_W' ex2_A ex_alpha = Some ex2_G'.
Proof.
rewrite /ex2_tape /cost_fn_gradient ex2_projected'.
congr Some; rewrite ex2_affinity.
by apply: mx21P; rewrite !calc /= ?mulr1n normr_nat gtr0_sg ?ltr0n //; field.
Qed.

Lemma ex2_F :
  compute_F ex2_G ex2_W = mx_of 2 2 [:: [:: 0; 9%:R]; [:: - 9%:R; 0]].
Proof. by apply: mx22P; split; rewrite /compute_F !calc /=; ring. Qed.

Lemma ex2_cayley :
  cayley ex2_lr (compute_F ex2_G ex2_W)
  = Some (mx_of 2 2 [:: [:: 0; - 1]; [:: 1; 0]]).
Proof.
rewrite /cayley ex2_F.
set B := 1%:M + _.
have -> : inv B = Some (mx_of 2 2 [:: [:: 2%:R^-1; - 2%:R^-1];
                                      [:: 2%:R^-1; 2%:R^-1]]).
  apply: invmx_eq; apply: mx22P.
  by split; rewrite /B /ex2_lr /half !calc /=; field.
congr Some; apply: mx22P.
by split; rewrite /ex2_lr /half !calc /=; field.
Qed.

Lemma ex2_update :
  mx_of 2 2 [:: [:: 0; - 1]; [:: 1; 0]] *m ex2_W = ex2_W'.
Proof. by apply: mx21P; rewrite !calc /=; ring. Qed.

Lemma ex2_lr_code : lr_update ex2_G ex2_W' ex2_W = Finite (5%:R / 39%:R).
Proof.
rewrite /lr_update /=.
have -> : \tr ((ex2_W' - ex2_W)^T
               *m (grad_J ex2_G ex2_W' - grad_J ex2_G ex2_W)) = 15%:R.
  by rewrite /mxtrace /grad_J !calc /=; ring.
have -> : \tr ((grad_J ex2_G ex2_W' - grad_J ex2_G ex2_W)^T
               *m (grad_J ex2_G ex2_W' - grad_J ex2_G ex2_W)) = 117%:R.
  by rewrite /mxtrace /grad_J !calc /=; ring.
rewrite /truediv pnatr_eq0 /= ger0_norm ?divr_ge0 ?ler0n //.
by congr Finite; field.
Qed.

Lemma ex2_lr_spec :
  lr_update_spec ex2_G' ex2_G ex2_W' ex2_W = Finite (17%:R / 145%:R).
Proof.
rewrite /lr_update_spec /=.
have -> : \tr ((ex2_W' - ex2_W)^T
               *m (grad_J ex2_G' ex2_W' - grad_J ex2_G ex2_W)) = 17%:R.
  by rewrite /mxtrace /grad_J !calc /=; ring.
have -> : \tr ((grad_J ex2_G' ex2_W' - grad_J ex2_G ex2_W)^T
               *m (grad_J ex2_G' ex2_W' - grad_J ex2_G ex2_W)) = 145%:R.
  by rewrite /mxtrace /grad_J !calc /=; ring.
rewrite /truediv_abs pnatr_eq0 /= ger0_norm ?divr_ge0 ?ler0n //.
Qed.

Lemma ex2_first_step :
  body ex2_tape ex2_X ex2_A (Finite ex_alpha) 0 (start ex2_W ex2_lr 2)
  = Next (State ex2_W' (Finite (5%:R / 39%:R))
            [:: cost_fn ex2_X ex2_W ex2_A ex_alpha; 0]).
Proof.
rewrite (bodyE 0 (erefl _ : lr_of (start ex2_W ex2_lr 2) = Finite ex2_lr)
           ex2_gradient ex2_cayley) /=.
by rewrite ex2_update ex2_lr_code.
Qed.

(** The solve with two features is given its initial W: eigsh is never
    called, and stands for any function. *)
Definition ex2_eigsh (B : 'M[R]_2) : 'rV[R]_1 * 'M[R]_(2, 1) := (0, 0).

Lemma ex2_only_step :
  body ex2_tape ex2_X ex2_A (Finite ex_alpha) 0 (start ex2_W ex2_lr 1)
  = Next (State ex2_W' (Finite (5%:R / 39%:R))
            [:: cost_fn ex2_X ex2_W ex2_A ex_alpha]).
Proof.
rewrite (bodyE 0 (erefl _ : lr_of (start ex2_W ex2_lr 1) = Finite ex2_lr)
           ex2_gradient ex2_cayley) /=.
by rewrite ex2_update ex2_lr_code.
Qed.

Lemma ex2_run :
  ESH_manifold ex_normalize_Z ex2_eigsh ex2_tape ex2_X ex2_Z (Some ex_alpha)
    ex2_lr 1 (Some ex2_W)
  = Returned ex2_W' [:: cost_fn ex2_X ex2_W ex2_A ex_alpha].
Proof.
by rewrite ESH_manifoldE [iota 0 1]/= for_range_cons ex2_only_step.
Qed.

Lemma ex2_orthonormal : orthonormal ex2_W.
Proof.
by apply: mx11P; rewrite /orthonormal !calc /= mulr1n; ring.
Qed.

(** C2, counterexample: two features, X = [2 3], Z = [1], W = [1; 0],
    alpha = 1, lr = 2/9.  The gradient at W is G_old = [-6; -9], the update
    moves W to [0; 1], where the gradient is [-8; -12].  The code sets
    lr = 5/39, the value of the formula with G_old in both terms of Y_it; the
    formula of the claim, with the gradient at the new W in the first term,
    gives 17/145. *)
Lemma lr_update_ignores_new_gradient :
  [/\ ex2_tape ex2_X ex2_W ex2_A ex_alpha = Some ex2_G,
      body ex2_tape ex2_X ex2_A (Finite ex_alpha) 0 (start ex2_W ex2_lr 2)
      = Next (State ex2_W' (Finite (5%:R / 39%:R))
                [:: cost_fn ex2_X ex2_W ex2_A ex_alpha; 0]),
      ex2_tape ex2_X ex2_W' ex2_A ex_alpha = Some ex2_G',
      lr_update_spec ex2_G' ex2_G ex2_W' ex2_W = Finite (17%:R / 145%:R)
    & (5%:R / 39%:R : R) != 17%:R / 145%:R].
Proof.
split.
- exact: ex2_gradient.
- exact: ex2_first_step.
- exact: ex2_gradient'.
- exact: ex2_lr_spec.
- rewrite eqr_div ?pnatr_eq0 // -!natrM eqr_nat //.
Qed.

(** C2, witness: the first iteration with two features; the one gradient it
    uses is [ex2_G]. *)
Lemma lr_update_witness :
  step_state (body ex2_tape ex2_X ex2_A (Finite ex_alpha) 0
                (start ex2_W ex2_lr 2))
  = Some (State ex2_W' (Finite (5%:R / 39%:R))
            [:: cost_fn ex2_X ex2_W ex2_A ex_alpha; 0])
  /\ Finite (5%:R / 39%:R) = lr_update_spec ex2_G ex2_G ex2_W' ex2_W.
Proof.
have st : step_state (body ex2_tape ex2_X ex2_A (Finite ex_alpha) 0
                        (start ex2_W ex2_lr 2))
          = Some (State ex2_W' (Finite (5%:R / 39%:R))
                    [:: cost_fn ex2_X ex2_W ex2_A ex_alpha; 0]).
  by rewrite ex2_first_step.
split; first exact: st.
have [a [G [[<-] tg lrN _]]] := lr_update_uses_old_gradient st.
have GE : G = ex2_G by move: tg; rewrite /= ex2_gradient => -[].
by rewrite -GE; apply: lrN; apply: ex2_first_step.
Defined.

End TwoFeatureExample.

(** ** The claims on the run with one feature *)

Section Witnesses.

(** C1, witness: the iteration with two features starts from the
    orthonormal W = [1; 0]; its factor Q is the rotation [0 -1; 1 0] and the
    new point Q W = [0; 1] is orthonormal. *)
Lemma orthonormal_invariant_witness :
  orthonormal ex2_W
  /\ exists2 Q, cayley ex2_lr (compute_F ex2_G ex2_W) = Some Q
       & ex2_W' = Q *m ex2_W /\ orthonormal ex2_W'.
Proof.
split; first exact: ex2_orthonormal.
have st : step_state (body ex2_tape ex2_X ex2_A (Finite ex_alpha) 0
                        (start ex2_W ex2_lr 1))
          = Some (State ex2_W' (Finite (5%:R / 39%:R))
                    [:: cost_fn ex2_X ex2_W ex2_A ex_alpha]).
  by rewrite ex2_only_step.
have [lr [G [Q [[lrs [a [aE] tg]] _ cQ WE oQ]]]] :=
  (proj1 (@ESH_manifold_orthonormal_invariant _ _ _ _ ex2_tape ex2_X ex2_A
            (Finite ex_alpha) (start ex2_W ex2_lr 1) ex2_orthonormal)) 0 _ st.
move: lrs tg cQ WE oQ => /= [<-]; rewrite -aE ex2_gradient => -[<-] cQ WE oQ.
by exists Q => //; split=> //; rewrite WE.
Defined.

Lemma ex_compute_alpha : compute_alpha ex_X ex_W ex_A = Finite 8%:R.
Proof.
rewrite compute_alphaE /truediv_abs ex_reg oner_eq0 ex_affinity /ex_W.
rewrite trmx1 mul1mx mulmx1 mxtrace_scalar mulr1n divr1 mulrN normrN.
by rewrite -natrM normr_nat.
Qed.

Lemma ex_run_None :
  ESH_manifold ex_normalize_Z ex_eigsh ex_tape ex_X ex_Z None ex_lr 1
    (Some ex_W)
  = Returned ex_W [:: cost_fn ex_X ex_W ex_A 8%:R].
Proof.
exact: (@ESH_manifold_one_feature_once _ _ _ _ ex_normalize_Z ex_eigsh ex_tape
          ex_X ex_Z None 8%:R ex_lr (ex_G 8%:R) (Some ex_W) ex_compute_alpha
          (ex_gradient 8%:R)).
Qed.

Lemma ex_reg_neq0 :
  frobenius_norm (map_mx Num.norm (ex_X *m ex_W) - const_mx 1) ^+ 2 != 0.
Proof. by rewrite ex_reg oner_eq0. Qed.

Lemma ex_reg_gt0 :
  0 < frobenius_norm (map_mx Num.norm (ex_X *m ex_W) - const_mx 1) ^+ 2.
Proof. by rewrite ex_reg ltr01. Qed.

(** C6, witness: reg = 1 on the run with one feature. *)
Lemma alpha_computed_once_witness :
  frobenius_norm (map_mx Num.norm (ex_X *m ex_W) - const_mx 1) ^+ 2 != 0
  /\ ESH_manifold ex_normalize_Z ex_eigsh ex_tape ex_X ex_Z None ex_lr 1
       (Some ex_W)
     = ESH_manifold ex_normalize_Z ex_eigsh ex_tape ex_X ex_Z
         (Some `|2%:R * - \tr (ex_W^T *m ex_A *m ex_W)
                 / frobenius_norm
                     (map_mx Num.norm (ex_X *m ex_W) - const_mx 1) ^+ 2|)
         ex_lr 1 (Some ex_W).
Proof.
split; first exact: ex_reg_neq0.
by have [] := (proj1 (@alpha_computed_once R 0 1 1 1 ex_normalize_Z ex_eigsh
                       ex_tape ex_X ex_Z ex_lr 1)) (Some ex_W) ex_reg_neq0.
Defined.

(** C9, witness: with alpha = None the weight is 8 and the first cost is 0. *)
Lemma first_cost_witness :
  [/\ 0 < frobenius_norm (map_mx Num.norm (ex_X *m ex_W) - const_mx 1) ^+ 2,
      ESH_manifold ex_normalize_Z ex_eigsh ex_tape ex_X ex_Z None ex_lr 1
        (Some ex_W)
      = Returned ex_W [:: cost_fn ex_X ex_W ex_A 8%:R]
    & cost_fn ex_X ex_W ex_A 8%:R = 0].
Proof.
split; [exact: ex_reg_gt0 | exact: ex_run_None |].
by have [] := (proj1 (@first_cost_with_selected_alpha R 0 1 1 1
                       ex_normalize_Z ex_eigsh ex_tape ex_X ex_Z ex_lr 1))
                (Some ex_W) _ _ ex_reg_gt0 ex_run_None.
Defined.

Lemma ex_generalized_state_at :
  state_at (generalized_body ex_tape ex_X ex_A (generalized_M ex_X)
              (Finite ex_alpha)) (start ex_W ex_lr 1) 1
  = Some (State ex_W (Finite ex_lr) [:: cost_fn ex_X ex_W ex_A ex_alpha]).
Proof.
set b := generalized_body _ _ _ _ _; set s0 := start _ _ _.
have -> : state_at b s0 1 = if b 0 s0 is Next s' then Some s' else None by [].
by rewrite /b /s0 (generalized_body_one_feature_first (generalized_M ex_X) ex_lr
             (ex_gradient ex_alpha)).
Qed.

(** C7, witness: the state after one iteration of the generalized body. *)
Lemma generalized_lr_witness :
  state_at (generalized_body ex_tape ex_X ex_A (generalized_M ex_X)
              (Finite ex_alpha)) (start ex_W ex_lr 1) 1
  = Some (State ex_W (Finite ex_lr) [:: cost_fn ex_X ex_W ex_A ex_alpha])
  /\ lr_of (State ex_W (Finite ex_lr) [:: cost_fn ex_X ex_W ex_A ex_alpha])
     = Finite ex_lr.
Proof.
split; first exact: ex_generalized_state_at.
exact: (proj1 (generalized_lr_never_updated ex_generalized_state_at)).
Defined.

Lemma diag_mx11 (v : 'rV[R]_1) : diag_mx v = v.
Proof. by apply/matrixP => i j; rewrite mxE !ord1 eqxx mulr1n. Qed.

Lemma ex_eigen_equation :
  generalized_M ex_X *m (1%:M : 'M[R]_1)
  = 1%:M *m diag_mx (generalized_M ex_X).
Proof. by rewrite mulmx1 mul1mx diag_mx11. Qed.

Lemma ex_eigen_orthonormal : (1%:M : 'M[R]_1)^T *m 1%:M = 1%:M.
Proof. by rewrite trmx1 mulmx1. Qed.

(** C8, witness: a 1 x 1 matrix M, with eigenvalue M and eigenvector [1]. *)
Lemma generalized_initial_W_witness :
  [/\ ex_eigsh (generalized_M ex_X) = (generalized_M ex_X, 1%:M),
      generalized_M ex_X *m (1%:M : 'M[R]_1)
      = 1%:M *m diag_mx (generalized_M ex_X),
      (1%:M : 'M[R]_1)^T *m 1%:M = 1%:M
    & exists2 W, generalized_W (generalized_M ex_X) 1%:M = Some W
                 & W^T *m generalized_M ex_X *m W = 1%:M].
Proof.
split; [by [] | exact: ex_eigen_equation | exact: ex_eigen_orthonormal |].
have [W WE [_ _ WMW _]] :=
  @generalized_initial_W R 0 1 1 1 ex_normalize_Z ex_eigsh ex_tape ex_X ex_Z
    _ _ (erefl _) ex_eigen_equation ex_eigen_orthonormal.
by exists W.
Defined.

(** C10, witness: the solve with two features and one iteration starts at
    W = [1; 0] with lr = 2/9 and returns Q W = [0; 1] for the factor Q of
    that step size and of the gradient at [1; 0]; its one trace entry is the
    cost at [1; 0]. *)
Lemma returned_W_witness :
  ESH_manifold ex_normalize_Z ex2_eigsh ex2_tape ex2_X ex2_Z (Some ex_alpha)
    ex2_lr 1 (Some ex2_W)
  = Returned ex2_W' [:: cost_fn ex2_X ex2_W ex2_A ex_alpha]
  /\ exists2 Q, cayley ex2_lr (compute_F ex2_G ex2_W) = Some Q
       & ex2_W' = Q *m ex2_W
         /\ last 0 [:: cost_fn ex2_X ex2_W ex2_A ex_alpha]
            = cost_fn ex2_X ex2_W ex2_A ex_alpha.
Proof.
split; first exact: ex2_run.
have [a [s [lr' [G [Q [[[[aE] sE] lastE [lrs tg] cQ WE] _]]]]]] :=
  (proj1 (@returned_W_one_update_past_last_cost R 0 2 1 1 ex_normalize_Z
            ex2_eigsh ex2_tape ex2_X ex2_Z (Some ex_alpha) ex2_lr 1))
    (Some ex2_W) _ _ ex2_run.
move: sE lastE lrs tg cQ WE => /= [<-] /= lastE [<-].
by rewrite -aE ex2_gradient => -[<-] cQ WE; exists Q.
Defined.

(** C10, counterexample: one feature X = [2], Z = [1], W = [1], alpha = 1,
    lr = 0.01, maxiter = 1.  F is a 1 x 1 skew matrix, hence 0, and the
    update leaves W where it was: the solve returns W = [1] with the trace
    [-7/2], and -7/2 is the cost of the returned W as well. *)
Lemma returned_cost_can_be_in_trace :
  ESH_manifold ex_normalize_Z ex_eigsh ex_tape ex_X ex_Z (Some ex_alpha)
    ex_lr 1 (Some ex_W)
  = Returned ex_W [:: - (7%:R / 2%:R)]
  /\ cost_fn ex_X ex_W ex_A ex_alpha \in [:: - (7%:R / 2%:R)].
Proof. by rewrite ex_run ex_cost_value inE eqxx. Qed.

(** C3, witness: the zero denominator of the run with one feature; with a
    second iteration the solve raises. *)
Lemma numerical_failures_witness :
  [/\ body ex_tape ex_X ex_A (Finite ex_alpha) 0 (start ex_W ex_lr 1)
      = Next (State ex_W NotFinite [:: cost_fn ex_X ex_W ex_A ex_alpha]),
      forall last,
        return_ (for_range (body ex_tape ex_X ex_A (Finite ex_alpha)) [:: 0]
                   last (start ex_W ex_lr 1))
        = Returned ex_W [:: cost_fn ex_X ex_W ex_A ex_alpha]
    & forall it' its last,
        return_ (for_range (body ex_tape ex_X ex_A (Finite ex_alpha))
                   (0 :: it' :: its) last (start ex_W ex_lr 1))
        = Raised InvalidArgumentError].
Proof.
have [_ _ _ _ zero] :=
  @numerical_failures R 0 1 1 1 ex_normalize_Z ex_eigsh ex_tape ex_X ex_Z
    (Some ex_alpha) ex_lr 1.
have [|_ ret raise] := zero _ _ _ _ _ _ (ex_first_step ex_alpha) (erefl _)
                        (ex_gradient ex_alpha).
  by rewrite /= subrr trmx0 mulmx0 mxtrace0.
by split; [exact: ex_first_step | exact: ret | exact: raise].
Defined.

End Witnesses.

(** ** The further properties on the concrete runs

    The generalized solver on the run with one feature: M = [4.01], the
    eigenpair (4.01, [1]) and the initial point W = [1 / sqrt M]. *)

Section PropertyWitnesses.

Definition ex_gW : 'M[R]_(1, 1) :=
  \matrix_(i, j) ((1%:M : 'M[R]_1) i j / Num.sqrt (generalized_M ex_X 0 j)).

Lemma ex_generalized_W :
  generalized_W (ex_eigsh (generalized_M ex_X)).1
    (ex_eigsh (generalized_M ex_X)).2 = Some ex_gW.
Proof.
rewrite /generalized_W /=.
have -> // : [forall j, 0 < generalized_M ex_X 0 j].
apply/forallP => j.
exact: (exact_eigenvalues_gt0 ex_eigen_equation ex_eigen_orthonormal j).
Qed.

Lemma ex_gW_isometry : ex_gW^T *m generalized_M ex_X *m ex_gW = 1%:M.
Proof.
exact: (generalized_W_isometry ex_eigen_equation ex_eigen_orthonormal
          ex_generalized_W).
Qed.

Lemma ex_gW_gradient a : exists G, ex_tape ex_X ex_gW ex_A a = Some G.
Proof. by eexists. Qed.

Lemma ex_generalized_run a :
  ESH_generalized_manifold ex_normalize_Z ex_eigsh ex_tape ex_X ex_Z (Some a)
    ex_lr 1
  = Returned ex_gW [:: cost_fn ex_X ex_gW ex_A a].
Proof.
have [G tg] := ex_gW_gradient a.
exact: (@ESH_generalized_manifold_one_feature_once R 0 1 1 ex_normalize_Z
          ex_eigsh ex_tape ex_X ex_Z (Some a) a ex_lr G ex_gW
          ex_generalized_W (erefl _) tg).
Qed.

Lemma ex_generalized_step a :
  step_state (generalized_body ex_tape ex_X ex_A (generalized_M ex_X)
                (Finite a) 0 (start ex_gW ex_lr 1))
  = Some (State ex_gW (Finite ex_lr) [:: cost_fn ex_X ex_gW ex_A a]).
Proof.
have [G tg] := ex_gW_gradient a.
by rewrite (generalized_body_one_feature_first (generalized_M ex_X) ex_lr tg).
Qed.

(** With alpha = 0 the generalized solve with one feature never moves (F is
    a 1 x 1 skew matrix) and records the same cost c <> 0 at every iteration:
    the test at iteration 10 holds and the solve stops there. *)
Definition ex_c : R := cost_fn ex_X ex_gW ex_A 0.

Lemma ex_c_neq0 : ex_c != 0.
Proof.
rewrite /ex_c cost_fnE /cost_spec mulr0 mul0r addr0 ex_affinity.
rewrite mul_mx_scalar -scalemxAl mxtraceZ.
apply: mulf_neq0; last by rewrite invr_neq0 // pnatr_eq0.
rewrite oppr_eq0; apply: mulf_neq0; first by rewrite pnatr_eq0.
rewrite trace_gram_eq0; apply/eqP => W0.
have /matrixP/(_ 0 0) := ex_gW_isometry.
by rewrite W0 mulmx0 !mxE eqxx => /eqP; rewrite eq_sym oner_eq0.
Qed.

Lemma ex_converged_at_10 (tl : seq R) :
  converged (ex_c :: nseq 9 ex_c ++ ex_c :: tl) 10.
Proof.
rewrite convergedE /= ex_c_neq0 subrr mul0r normr0 /=.
by rewrite invr_gt0 exprn_gt0 // ltr0n.
Qed.

Lemma ex_stationary_step it (cv : seq R) :
  generalized_body ex_tape ex_X ex_A (generalized_M ex_X) (Finite 0) it
    (State ex_gW (Finite ex_lr) cv)
  = if converged (set_nth 0 cv it ex_c) it
    then Break (State ex_gW (Finite ex_lr) (set_nth 0 cv it ex_c))
    else Next (State ex_gW (Finite ex_lr) (set_nth 0 cv it ex_c)).
Proof.
have [G tg] := ex_gW_gradient 0.
exact: (@generalized_body_one_feature R 0 1 ex_tape ex_X ex_A
          (generalized_M ex_X) 0 ex_lr G it (State ex_gW (Finite ex_lr) cv)
          (erefl _) tg).
Qed.

Lemma ex_stationary_loop it its last (cv : seq R) :
  (it < 10)%N ->
  for_range (generalized_body ex_tape ex_X ex_A (generalized_M ex_X)
               (Finite 0)) (it :: its) last (State ex_gW (Finite ex_lr) cv)
  = for_range (generalized_body ex_tape ex_X ex_A (generalized_M ex_X)
                 (Finite 0)) its (Some it)
      (State ex_gW (Finite ex_lr) (set_nth 0 cv it ex_c)).
Proof.
by move=> it10; rewrite for_range_cons ex_stationary_step converged_before_10.
Qed.

Lemma ex_converged_run :
  ESH_generalized_manifold ex_normalize_Z ex_eigsh ex_tape ex_X ex_Z (Some 0)
    ex_lr 12
  = Returned ex_gW (nseq 11 ex_c).
Proof.
rewrite (ESH_generalized_manifoldE ex_normalize_Z ex_tape ex_Z (Some 0) ex_lr
           12 ex_generalized_W).
rewrite [iota 0 12]/= /start [nseq 12 0]/= [resolve_alpha _ _ _ _]/= -/ex_A.
do 10! rewrite ex_stationary_loop //.
rewrite for_range_cons ex_stationary_step [set_nth _ _ _ _]/=.
by rewrite (ex_converged_at_10 [:: 0]).
Qed.

(** C4, witness: the generalized solve with one feature, alpha = 0 and
    maxiter = 12 stops at the test of iteration 10 and returns 11 entries. *)
Lemma convergence_check_witness :
  ESH_generalized_manifold ex_normalize_Z ex_eigsh ex_tape ex_X ex_Z (Some 0)
    ex_lr 12
  = Returned ex_gW (nseq 11 ex_c)
  /\ stops_at_first_convergence 12 (nseq 11 ex_c).
Proof.
split; first exact: ex_converged_run.
have [_ _ generalized _ _] :=
  @convergence_check R 0 1 1 1 ex_normalize_Z ex_eigsh ex_tape ex_X ex_Z
    (Some 0) ex_lr 12.
exact: generalized ex_converged_run.
Defined.

(** X8, witness: the generalized solve with one feature and one iteration. *)
Lemma generalized_isometry_witness :
  [/\ generalized_M ex_X *m (ex_eigsh (generalized_M ex_X)).2
      = (ex_eigsh (generalized_M ex_X)).2
        *m diag_mx (ex_eigsh (generalized_M ex_X)).1,
      (ex_eigsh (generalized_M ex_X)).2^T *m (ex_eigsh (generalized_M ex_X)).2
      = 1%:M,
      ESH_generalized_manifold ex_normalize_Z ex_eigsh ex_tape ex_X ex_Z
        (Some ex_alpha) ex_lr 1
      = Returned ex_gW [:: cost_fn ex_X ex_gW ex_A ex_alpha]
    & ex_gW^T *m generalized_M ex_X *m ex_gW = 1%:M].
Proof.
split; [exact: ex_eigen_equation | exact: ex_eigen_orthonormal
       | exact: ex_generalized_run |].
exact: (@ESH_generalized_manifold_isometry R 0 1 1 1 ex_normalize_Z ex_eigsh
          ex_tape ex_X ex_Z (Some ex_alpha) ex_lr 1 ex_gW _ ex_eigen_equation
          ex_eigen_orthonormal (ex_generalized_run ex_alpha)).
Defined.

(** X9, witness: the first generalized iteration with one feature. *)
Lemma generalized_update_witness :
  step_state (generalized_body ex_tape ex_X ex_A (generalized_M ex_X)
                (Finite ex_alpha) 0 (start ex_gW ex_lr 1))
  = Some (State ex_gW (Finite ex_lr) [:: cost_fn ex_X ex_gW ex_A ex_alpha])
  /\ exists2 Q, ex_gW = Q *m ex_gW
       & Q^T *m generalized_M ex_X *m Q = generalized_M ex_X.
Proof.
split; first exact: ex_generalized_step.
have [Q QE [QMQ _]] :=
  @generalized_update_preserves_metric R 0 1 1 1 ex_normalize_Z ex_tape ex_X
    ex_Z _ _ _ _ (ex_generalized_step ex_alpha).
by exists Q.
Defined.

(** X4, witness: W = [1; 0] and the gradient [-6; -9]. *)
Lemma grad_J_tangent_witness :
  orthonormal ex2_W
  /\ compute_F ex2_G ex2_W *m ex2_W = grad_J ex2_G ex2_W.
Proof.
split; first exact: ex2_orthonormal.
exact: (proj2 (grad_J_tangent ex2_G ex2_orthonormal)).
Defined.

(** X5, witness: the initial point of the generalized solver with one
    feature. *)
Lemma generalized_grad_J_witness :
  ex_gW^T *m generalized_M ex_X *m ex_gW = 1%:M
  /\ (ex_gW^T *m generalized_grad_J (ex_G ex_alpha) ex_gW
                   (generalized_M ex_X) None)^T
     = - (ex_gW^T *m generalized_grad_J (ex_G ex_alpha) ex_gW
                       (generalized_M ex_X) None).
Proof.
split; first exact: ex_gW_isometry.
have [_ _ skew] := generalized_grad_J_tangent (ex_G ex_alpha) ex_gW
                       (generalized_M ex_X).
exact: skew ex_gW_isometry.
Defined.

(** X6, witness: the step size 5/39 of the iteration with two features. *)
Lemma lr_update_properties_witness :
  lr_update ex2_G ex2_W' ex2_W = Finite (5%:R / 39%:R)
  /\ 0 <= (5%:R / 39%:R : R).
Proof.
split; first exact: ex2_lr_code.
have [_ _ ge0] := lr_update_properties ex2_G ex2_W' ex2_W.
exact: ge0 _ ex2_lr_code.
Defined.

Lemma ex_alpha_gt0 : 0 < ex_alpha.
Proof. by rewrite /ex_alpha ltr01. Qed.

(** X10, witness: alpha = 1 on the run with one feature. *)
Lemma cost_fn_penalty_witness :
  0 < ex_alpha
  /\ - \tr (ex_W^T *m ex_A *m ex_W) / 1%:R <= cost_fn ex_X ex_W ex_A ex_alpha.
Proof.
split; first exact: ex_alpha_gt0.
exact: (proj1 (cost_fn_penalty ex_X ex_W ex_A ex_alpha_gt0)).
Defined.

(** X11, witness: the run with one feature. *)
Lemma trace_bounded_below_witness :
  [/\ orthonormal (initialize_W ex_eigsh (Some ex_W) ex_A),
      0 <= ex_alpha,
      ESH_manifold ex_normalize_Z ex_eigsh ex_tape ex_X ex_Z (Some ex_alpha)
        ex_lr 1 (Some ex_W)
      = Returned ex_W [:: cost_fn ex_X ex_W ex_A ex_alpha]
    & orthonormal ex_W].
Proof.
have a0 : 0 <= ex_alpha by rewrite ltW // ex_alpha_gt0.
split; [exact: ex_orthonormal | exact: a0 | exact: ex_run |].
have a0' : forall a1, Some ex_alpha = Some a1 -> 0 <= a1 by move=> a1 [<-].
exact: (proj1 (@ESH_manifold_trace_bounded_below R 0 1 1 1 ex_normalize_Z
                 ex_eigsh ex_tape ex_X ex_Z (Some ex_alpha) ex_lr 1
                 (Some ex_W) _ _ ex_orthonormal a0' (ex_run ex_alpha))).
Defined.

(** X12, witness: the weight 8 of the run with one feature. *)
Lemma compute_alpha_edge_witness :
  compute_alpha ex_X ex_W ex_A = Finite 8%:R /\ 0 <= (8%:R : R).
Proof.
split; first exact: ex_compute_alpha.
exact: (proj1 ((proj2 (compute_alpha_edge ex_X ex_W ex_A)) _ ex_compute_alpha)).
Defined.

(** One sample with the feature 1: the projected value at W = [1] is 1. *)
Definition ex1_X : 'M[R]_(1, 1) := 1%:M.

Lemma ex1_binary (i j : 'I_1) :
  `|(ex1_X *m initialize_W ex_eigsh (Some ex_W)
               (get_feature_affinity ex_normalize_Z ex1_X ex_Z)) i j| = 1.
Proof. by rewrite /= /ex1_X mul1mx /ex_W mxE !ord1 eqxx normr1. Qed.

(** X14, witness: X = [1], W = [1], one iteration. *)
Lemma auto_alpha_on_binary_codes_witness :
  [/\ (0 < 1)%N, `|(ex1_X *m ex_W) 0 0| = 1
    & ESH_manifold ex_normalize_Z ex_eigsh ex_tape ex1_X ex_Z None ex_lr 1
        (Some ex_W)
      = Raised InvalidArgumentError].
Proof.
split; [by [] | exact: (ex1_binary 0 0) |].
exact: (proj1 (auto_alpha_on_binary_codes ex_normalize_Z ex_eigsh ex_tape
                 ex1_X ex_Z ex_lr 1) (Some ex_W) isT ex1_binary).
Defined.

(** X15, witness: the run with one feature returns maxiter = 1 entries. *)
Lemma returned_trace_length_witness :
  ESH_manifold ex_normalize_Z ex_eigsh ex_tape ex_X ex_Z (Some ex_alpha)
    ex_lr 1 (Some ex_W)
  = Returned ex_W [:: cost_fn ex_X ex_W ex_A ex_alpha]
  /\ (size [:: cost_fn ex_X ex_W ex_A ex_alpha] = 1%N
      \/ [/\ (size [:: cost_fn ex_X ex_W ex_A ex_alpha] < 1)%N,
             nth 0 [:: cost_fn ex_X ex_W ex_A ex_alpha]
               (size [:: cost_fn ex_X ex_W ex_A ex_alpha] - 11)%N != 0
           & exists2 k, (0 < k)%N
               & size [:: cost_fn ex_X ex_W ex_A ex_alpha] = (10 * k).+1]).
Proof.
split; first exact: ex_run.
exact: (proj1 (returned_trace_length ex_normalize_Z ex_eigsh ex_tape ex_X
                 ex_Z (Some ex_alpha) ex_lr 1) _ _ _ (ex_run ex_alpha)).
Defined.

(** X16, witness: with one feature F = 0, and the second of two iterations
    raises. *)
Lemma stationary_start_witness :
  [/\ ex_tape ex_X ex_W ex_A ex_alpha = Some (ex_G ex_alpha),
      compute_F (ex_G ex_alpha) ex_W = 0,
      ESH_manifold ex_normalize_Z ex_eigsh ex_tape ex_X ex_Z (Some ex_alpha)
        ex_lr 1 (Some ex_W)
      = Returned ex_W [:: cost_fn ex_X ex_W ex_A ex_alpha]
    & ESH_manifold ex_normalize_Z ex_eigsh ex_tape ex_X ex_Z (Some ex_alpha)
        ex_lr 2 (Some ex_W)
      = Raised InvalidArgumentError].
Proof.
have [_ one two] :=
  @stationary_start R 0 1 1 1 ex_normalize_Z ex_eigsh ex_tape ex_X ex_Z
    (Some ex_alpha) ex_lr 0 (Some ex_W) ex_alpha (ex_G ex_alpha) (erefl _)
    (ex_gradient ex_alpha) (or_intror (compute_F_one_feature _ _)).
split; [exact: ex_gradient | exact: compute_F_one_feature | exact: one |].
exact: two.
Defined.

Lemma ex_tape_total a (W : 'M[R]_(1, 1)) :
  exists G, ex_tape ex_X W ex_A a = Some G.
Proof. by eexists. Qed.

(** X17, witness: the generalized solve with one feature and one
    iteration. *)
Lemma generalized_returns_witness :
  [/\ generalized_W (ex_eigsh (generalized_M ex_X)).1
        (ex_eigsh (generalized_M ex_X)).2 = Some ex_gW,
      (0 < 1)%N
    & exists W tr,
        ESH_generalized_manifold ex_normalize_Z ex_eigsh ex_tape ex_X ex_Z
          (Some ex_alpha) ex_lr 1
        = Returned W tr].
Proof.
split; [exact: ex_generalized_W | by [] |].
exact: (@ESH_generalized_manifold_returns R 0 1 1 1 ex_normalize_Z ex_eigsh
          ex_tape ex_X ex_Z (Some ex_alpha) ex_alpha ex_lr 1 ex_gW
          (ex_tape_total ex_alpha) ex_generalized_W (erefl _) isT).
Defined.

Lemma ex_two_neq0 : (2%:R : R) != 0.
Proof. by rewrite pnatr_eq0. Qed.

(** X18, witness: the factor 2. *)
Lemma converged_scale_witness :
  (2%:R : R) != 0
  /\ converged [seq 2%:R * x | x <- [:: - (7%:R / 2%:R : R)]] 0
     = converged [:: - (7%:R / 2%:R : R)] 0.
Proof.
split; first exact: ex_two_neq0.
exact: (converged_scale_invariant [:: - (7%:R / 2%:R : R)] 0 ex_two_neq0).
Defined.

End PropertyWitnesses.
